(* ===================================================================== *)
(* alburnum.maas.flesh: command registration, dispatch and the commands  *)
(* that run against the profile store.                                   *)
(*                                                                       *)
(* The module is embedded function by function.  Python objects that are *)
(* mutated through references (argument parsers and their sub-parser     *)
(* actions) live in a heap of objects addressed by allocation index;     *)
(* exceptions are values carried by a state-and-error monad whose state  *)
(* survives a raise, as the interpreter's does.                          *)
(* ===================================================================== *)

From Stdlib Require Import ZArith Ascii String List Sorting.Sorted
  Sorting.Permutation DecimalString.
From stdpp Require Import gmap strings list fin_maps.

Local Open Scope string_scope.

(* --------------------------------------------------------------------- *)
(* Python strings: the methods of str that flesh.py calls                *)
(* --------------------------------------------------------------------- *)

Module Str.

(* str.replace(old, new) for one-character old and new *)
Fixpoint replace (old new : ascii) (s : string) : string :=
  match s with
  | EmptyString => EmptyString
  | String c rest =>
      String (if Ascii.eqb c old then new else c) (replace old new rest)
  end.

Definition lower_char (c : ascii) : ascii :=
  let n := nat_of_ascii c in
  if (65 <=? n)%nat && (n <=? 90)%nat then ascii_of_nat (n + 32) else c.

(* str.lower() on identifiers, which flesh.py spells in ASCII *)
Fixpoint lower (s : string) : string :=
  match s with
  | EmptyString => EmptyString
  | String c rest => String (lower_char c) (lower rest)
  end.

Definition upper_char (c : ascii) : ascii :=
  let n := nat_of_ascii c in
  if (97 <=? n)%nat && (n <=? 122)%nat then ascii_of_nat (n - 32) else c.

(* str.capitalize() *)
Definition capitalize (s : string) : string :=
  match s with
  | EmptyString => EmptyString
  | String c rest => String (upper_char c) (lower rest)
  end.

(* s.startswith(p) *)
Definition startswith (p s : string) : bool := String.prefix p s.

(* s[n:] *)
Fixpoint slice_from (n : nat) (s : string) : string :=
  match n, s with
  | O, _ => s
  | S _, EmptyString => EmptyString
  | S k, String _ rest => slice_from k rest
  end.

(* sep.join(parts) *)
Fixpoint join (sep : string) (parts : list string) : string :=
  match parts with
  | [] => ""
  | [p] => p
  | p :: rest => p ++ sep ++ join sep rest
  end.

(* str(n) for an int *)
Definition of_int (z : Z) : string := NilZero.string_of_int (Z.to_int z).

End Str.

(* --------------------------------------------------------------------- *)
(* Exceptions and results                                                *)
(* --------------------------------------------------------------------- *)

(* The argument of SystemExit: nothing, an integer status, or any other
   object, which the interpreter prints to stderr before exiting with 1. *)
Inductive exit_arg :=
| ExitNone
| ExitCode (n : Z)
| ExitMsg (s : string).

(* KeyboardInterrupt and SystemExit derive from BaseException only; every
   other failure that reaches main is an instance of a class deriving from
   Exception, kept as its class name and the text str(error). *)
Inductive exn :=
| KeyboardInterrupt
| SystemExit (a : exit_arg)
| Exception (cls : string) (msg : string).

Inductive result (A : Type) :=
| Ok (a : A)
| Raise (e : exn).
Arguments Ok {A} a.
Arguments Raise {A} e.

Definition is_Exception (e : exn) : bool :=
  match e with Exception _ _ => true | _ => false end.

(* What the interpreter reports to the operating system once main has
   returned or let an exception escape. *)
Definition exit_status {A} (r : result A) : Z :=
  match r with
  | Ok _ => 0
  | Raise (SystemExit ExitNone) => 0
  | Raise (SystemExit (ExitCode n)) => n
  | Raise (SystemExit (ExitMsg _)) => 1
  | Raise KeyboardInterrupt => 1
  | Raise (Exception _ _) => 1
  end.

(* --------------------------------------------------------------------- *)
(* Command.name                                                          *)
(* --------------------------------------------------------------------- *)

(* name = cls.__name__.replace("_", "-").lower()
   name = name[4:] if name.startswith("cmd-") else name *)
Definition Command_name (cls_name : string) : string :=
  let name := Str.lower (Str.replace "_" "-" cls_name) in
  let name := if Str.startswith "cmd-" name then Str.slice_from 4 name else name in
  name.

(* The naming rule in the words of the specification, over the characters
   of the identifier: hyphens for underscores, lower case, and a leading
   "cmd-" removed when it is there. *)
Module NamingRule.

Definition hyphenate (c : ascii) : ascii :=
  if Ascii.eqb c "_" then "-"%char else c.

Definition strip_cmd (cs : list ascii) : list ascii :=
  match cs with
  | "c"%char :: "m"%char :: "d"%char :: "-"%char :: rest => rest
  | _ => cs
  end.

Definition default_name (identifier : string) : string :=
  string_of_list_ascii
    (strip_cmd
       (List.map Str.lower_char
          (List.map hyphenate (list_ascii_of_string identifier)))).

End NamingRule.

(* --------------------------------------------------------------------- *)
(* Data model                                                            *)
(* --------------------------------------------------------------------- *)

(** Modelled from the spec: alburnum.maas.creds.Credentials is not part
    of flesh.py; a three-part secret of consumer key, token and token
    secret. *)
Record Credentials := {
  consumer_key : string;
  token_key : string;
  token_secret : string;
}.

(* One entry of the profile store: the dict that cmd_login writes. *)
Record Profile := {
  credentials : option Credentials;
  description : string;
  name : string;
  url : string;
}.

(* Records of the remote object model read by the list commands. *)
Record Node := {
  hostname : string;
  system_id : string;
  architecture : string;
  cpus : Z;
  memory : Z;
  substatus_name : string;
  power_state : string;
}.

Record Tag := {
  tag_name : string;
  definition : option string;
  kernel_opts : option string;
  comment : option string;
}.

Record File := { filename : string }.

Record User := {
  username : string;
  email : string;
  is_admin : bool;
}.

(* A str is either plain or a colorclass.Color built from markup. *)
Inductive text :=
| Plain (s : string)
| Color (markup : string).

(* What a table cell may hold before prep. *)
Inductive cell :=
| CNone
| CText (t : text)
| CInt (z : Z).

(* The implementations of Command that flesh.py defines. *)
Inductive implementation :=
| login
| logout
| list_profiles
| refresh_profiles
| list_nodes
| list_tags
| list_files
| list_users
| list_xxx.

(* A subclass of Command: its identifier, the two parts that
   utils.parse_docstring extracts from its docstring, and its body. *)
Record CommandClass := {
  cls_name : string;
  help_title : string;
  help_body : string;
  impl : implementation;
}.

(* References into the object heap are allocation indices. *)
Abbreviation ref := nat.

(* An instance cls(command_parser): Command.__init__ keeps the parser. *)
Record Command := {
  cls : CommandClass;
  parser : ref;
}.

Inductive value :=
| VNone
| VBool (b : bool)
| VStr (s : string)
| VCommand (c : Command).

(* argparse.Namespace: attribute name to value, in order of assignment *)
Definition Namespace := list (string * value).

Fixpoint getattr (ns : Namespace) (k : string) : option value :=
  match ns with
  | [] => None
  | (k', v) :: rest => if String.eqb k k' then Some v else getattr rest k
  end.

Definition hasattr (ns : Namespace) (k : string) : bool :=
  match getattr ns k with Some _ => true | None => false end.

Fixpoint setattr (ns : Namespace) (k : string) (v : value) : Namespace :=
  match ns with
  | [] => [(k, v)]
  | (k', v') :: rest =>
      if String.eqb k k' then (k, v) :: rest else (k', v') :: setattr rest k v
  end.

(* A dict with string keys that remembers insertion order; assigning to a
   key that is present keeps its place. *)
Section Dict.
Context {V : Type}.

Fixpoint dict_get (d : list (string * V)) (k : string) : option V :=
  match d with
  | [] => None
  | (k', v) :: rest => if String.eqb k k' then Some v else dict_get rest k
  end.

Fixpoint dict_set (d : list (string * V)) (k : string) (v : V)
  : list (string * V) :=
  match d with
  | [] => [(k, v)]
  | (k', v') :: rest =>
      if String.eqb k k' then (k, v) :: rest else (k', v') :: dict_set rest k v
  end.

Definition dict_keys (d : list (string * V)) : list string := List.map fst d.
End Dict.

Inductive nargs_t :=
| NargsNone        (* nargs=None: exactly one argument *)
| NargsOptional.   (* nargs="?" *)

Inductive arg_type :=
| TypeStr          (* no type= given *)
| TypeApiUrl.      (* type=utils.api_url *)

Inductive help_t :=
| HelpAbsent
| HelpText (s : string)
| HelpSuppress.    (* argparse.SUPPRESS *)

Inductive action_kind :=
| StoreAction (nargs : nargs_t) (type : arg_type)
| StoreTrueAction
| HelpAction
| SubParsersActionRef (r : ref).

(* argparse.Action; default None stands for argparse.SUPPRESS, which
   leaves the attribute unset. *)
Record Action := {
  option_strings : list string;
  dest : string;
  kind : action_kind;
  default : option value;
  help : help_t;
  metavar : option string;
}.

(* The parser object.  subparsers_attr is the name-mangled attribute
   self.__subparsers: None is the state in which reading it raises
   AttributeError. *)
Record ArgumentParser := {
  prog : string;
  parser_description : string;
  epilog : string;
  _actions : list Action;
  _defaults : list (string * value);
  subparsers_attr : option ref;
}.

(* argparse._SubParsersAction *)
Record SubParsersAction := {
  title : string;
  sub_metavar : option string;
  _prog_prefix : string;
  _choices_actions : list (string * string);
  _name_parser_map : list (string * ref);
}.

Inductive object :=
| OParser (p : ArgumentParser)
| OSubParsers (s : SubParsersAction).

(* Structured form of what print_help writes. *)
Record help_group := {
  group_title : string;
  entries : list (string * string);
}.

Record help_doc := {
  usage : list string;
  doc_description : string;
  groups : list help_group;
  doc_epilog : string;
}.

Inductive output :=
| Line (s : string)                         (* print(s) *)
| Filled (s : string)                       (* print(fill(s)) *)
| Table (single : bool) (data : list (list text))
                                            (* print(make_table(data).table) *)
| Help (doc : help_doc).                    (* parser.print_help(stream) *)

Record world := {
  heap : list object;
  store : gmap string Profile;
  stdout : list output;
  stderr : list output;
}.

Definition initial (profiles : gmap string Profile) : world :=
  {| heap := []; store := profiles; stdout := []; stderr := [] |}.

(* Collaborators outside flesh.py, and the two properties of the running
   interpreter that flesh.py depends on. *)
Record environment := {
  (* sys.stdout.isatty() *)
  isatty : bool;
  (* colorclass.Color(text).value_no_colors *)
  value_no_colors : string -> string;
  (* utils.api_url as an argparse type; None when it raises one of the
     errors that argparse turns into a usage error *)
  api_url : string -> option string;
  (* auth.obtain_credentials *)
  obtain_credentials : option string -> result (option Credentials);
  (* bones.SessionAPI.fromURL(url, credentials=, insecure=).description *)
  fromURL : string -> option Credentials -> bool -> result string;
  (* iteration over origin.Nodes, .Tags, .Files, .Users for the session
     of a stored profile *)
  Nodes : Profile -> result (list Node);
  Tags : Profile -> result (list Tag);
  Files : Profile -> result (list File);
  Users : Profile -> result (list User);
  (* origin.Xxxs of the unregistered template command: the _data of each *)
  Xxxs : Profile -> result (list (list (string * cell)));
  (* whether argparse's add_parser raises on a name that is already in the
     map (CPython 3.11 and later) or assigns over it (earlier) *)
  conflicting_subparser_check : bool;
}.

(* --------------------------------------------------------------------- *)
(* The monad: world state threaded through, exceptions short-circuit     *)
(* --------------------------------------------------------------------- *)

Definition M (A : Type) : Type := world -> result A * world.

Definition ret {A} (a : A) : M A := fun w => (Ok a, w).

Definition raise {A} (e : exn) : M A := fun w => (Raise e, w).

Definition bind {A B} (m : M A) (k : A -> M B) : M B :=
  fun w =>
    match m w with
    | (Ok a, w') => k a w'
    | (Raise e, w') => (Raise e, w')
    end.

Notation "x <- m ;; k" := (bind m (fun x => k))
  (at level 100, m at next level, right associativity).
Notation "m ;;; k" := (bind m (fun _ => k))
  (at level 100, right associativity).

(* try: m  except <matching e>: handler e *)
Definition try_except {A} (m : M A) (handles : exn -> bool)
  (handler : exn -> M A) : M A :=
  fun w =>
    match m w with
    | (Ok a, w') => (Ok a, w')
    | (Raise e, w') => if handles e then handler e w' else (Raise e, w')
    end.

Definition lift {A} (r : result A) : M A := fun w => (r, w).

Definition get_heap : M (list object) := fun w => (Ok (heap w), w).

Definition put_heap (h : list object) : M unit :=
  fun w => (Ok tt, {| heap := h; store := store w;
                      stdout := stdout w; stderr := stderr w |}).

Definition get_store : M (gmap string Profile) := fun w => (Ok (store w), w).

Definition put_store (s : gmap string Profile) : M unit :=
  fun w => (Ok tt, {| heap := heap w; store := s;
                      stdout := stdout w; stderr := stderr w |}).

Definition print (o : output) : M unit :=
  fun w => (Ok tt, {| heap := heap w; store := store w;
                      stdout := stdout w ++ [o]; stderr := stderr w |}).

Definition print_err (o : output) : M unit :=
  fun w => (Ok tt, {| heap := heap w; store := store w;
                      stdout := stdout w; stderr := stderr w ++ [o] |}).

(* --------------------------------------------------------------------- *)
(* The object heap                                                       *)
(* --------------------------------------------------------------------- *)

Definition alloc (o : object) : M ref :=
  fun w => (Ok (length (heap w)),
            {| heap := heap w ++ [o]; store := store w;
               stdout := stdout w; stderr := stderr w |}).

Definition no_such_object {A} : M A :=
  raise (Exception "AttributeError" "object has no such attribute").

Definition get_parser (r : ref) : M ArgumentParser :=
  h <- get_heap ;;
  match h !! r with
  | Some (OParser p) => ret p
  | _ => no_such_object
  end.

Definition set_parser (r : ref) (p : ArgumentParser) : M unit :=
  h <- get_heap ;; put_heap (<[r := OParser p]> h).

Definition get_action (r : ref) : M SubParsersAction :=
  h <- get_heap ;;
  match h !! r with
  | Some (OSubParsers s) => ret s
  | _ => no_such_object
  end.

Definition set_action (r : ref) (s : SubParsersAction) : M unit :=
  h <- get_heap ;; put_heap (<[r := OSubParsers s]> h).

(* --------------------------------------------------------------------- *)
(* argparse: construction and help, as far as flesh.py drives them       *)
(* --------------------------------------------------------------------- *)

Module argparse.

Definition help_action : Action :=
  {| option_strings := ["-h"; "--help"]; dest := "help";
     kind := HelpAction; default := None;
     help := HelpText "show this help message and exit";
     metavar := None |}.

Definition is_positional (a : Action) : bool :=
  match option_strings a with [] => true | _ => false end.

Definition is_subparsers (a : Action) : bool :=
  match kind a with SubParsersActionRef _ => true | _ => false end.

Definition suppressed (a : Action) : bool :=
  match help a with HelpSuppress => true | _ => false end.

Definition help_string (a : Action) : string :=
  match help a with HelpText s => s | _ => "" end.

Definition metavar_of (a : Action) : string :=
  match metavar a with Some m => m | None => dest a end.

(* The choices of a sub-parser action as usage shows them. *)
Definition choices_metavar (s : SubParsersAction) : string :=
  match sub_metavar s with
  | Some m => m
  | None => "{" ++ Str.join "," (dict_keys (_name_parser_map s)) ++ "}"
  end.

(* How one action appears in a usage line. *)
Definition usage_part (h : list object) (a : Action) : list string :=
  match kind a with
  | StoreAction NargsNone _ => [metavar_of a]
  | StoreAction NargsOptional _ => ["[" ++ metavar_of a ++ "]"]
  | StoreTrueAction | HelpAction =>
      match option_strings a with
      | o :: _ => ["[" ++ o ++ "]"]
      | [] => []
      end
  | SubParsersActionRef r =>
      match h !! r with
      | Some (OSubParsers s) => [choices_metavar s; "..."]
      | _ => []
      end
  end.

Definition visible (a : Action) : bool := negb (suppressed a).

Definition usage_of (h : list object) (p : ArgumentParser) : list string :=
  prog p
  :: concat (List.map (usage_part h)
               (List.filter (fun a => visible a && negb (is_positional a))
                  (_actions p)))
  ++ concat (List.map (usage_part h)
               (List.filter (fun a => visible a && is_positional a)
                  (_actions p))).

(* ArgumentParser.__init__ of argparse with add_help left at True *)
Definition new (prog description epilog : string) : M ref :=
  alloc (OParser {| prog := prog; parser_description := description;
                    epilog := epilog; _actions := [help_action];
                    _defaults := []; subparsers_attr := None |}).

Definition conflicts (a : Action) (existing : list Action) : bool :=
  existsb (fun o => existsb (fun b => existsb (String.eqb o) (option_strings b))
                      existing)
    (option_strings a).

(* parser.add_argument(...), the action already built from its keywords *)
Definition add_argument (r : ref) (a : Action) : M unit :=
  p <- get_parser r ;;
  if conflicts a (_actions p) then
    raise (Exception "ArgumentError" "conflicting option string")
  else
    set_parser r
      {| prog := prog p; parser_description := parser_description p;
         epilog := epilog p; _actions := _actions p ++ [a];
         _defaults := _defaults p; subparsers_attr := subparsers_attr p |}.

Definition update_default (kwargs : list (string * value)) (a : Action)
  : Action :=
  match dict_get kwargs (dest a) with
  | Some v =>
      {| option_strings := option_strings a; dest := dest a; kind := kind a;
         default := Some v; help := help a; metavar := metavar a |}
  | None => a
  end.

(* parser.set_defaults with the given keyword arguments *)
Definition set_defaults (r : ref) (kwargs : list (string * value)) : M unit :=
  p <- get_parser r ;;
  set_parser r
    {| prog := prog p; parser_description := parser_description p;
       epilog := epilog p;
       _actions := List.map (update_default kwargs) (_actions p);
       _defaults := fold_left (fun d kv => dict_set d (fst kv) (snd kv))
                      kwargs (_defaults p);
       subparsers_attr := subparsers_attr p |}.

(* One group of the help text; the group of a sub-parser action lists
   the action itself and then every registered choice. *)
Definition entry_of (a : Action) : string * string :=
  (if is_positional a then metavar_of a
   else Str.join ", " (option_strings a), help_string a).

Definition subparser_groups (h : list object) (a : Action)
  : list help_group :=
  match kind a with
  | SubParsersActionRef r =>
      match h !! r with
      | Some (OSubParsers s) =>
          [{| group_title := title s;
              entries := (choices_metavar s, "") :: _choices_actions s |}]
      | _ => []
      end
  | _ => []
  end.

Definition nonempty_group (g : help_group) : bool :=
  match entries g with [] => false | _ => true end.

Definition format_help (h : list object) (p : ArgumentParser) : help_doc :=
  let shown := List.filter visible (_actions p) in
  let plain := List.filter (fun a => negb (is_subparsers a)) shown in
  {| usage := usage_of h p;
     doc_description := parser_description p;
     groups :=
       List.filter nonempty_group
         ({| group_title := "positional arguments";
             entries := List.map entry_of (List.filter is_positional plain) |}
          :: {| group_title := "optional arguments";
                entries := List.map entry_of
                             (List.filter (fun a => negb (is_positional a))
                                plain) |}
          :: concat (List.map (subparser_groups h) shown));
     doc_epilog := epilog p |}.

(* parser.print_help(sys.stderr) *)
Definition print_help_err (r : ref) : M unit :=
  p <- get_parser r ;;
  h <- get_heap ;;
  print_err (Help (format_help h p)).

(* parser.print_help() *)
Definition print_help (r : ref) : M unit :=
  p <- get_parser r ;;
  h <- get_heap ;;
  print (Help (format_help h p)).

End argparse.

(* --------------------------------------------------------------------- *)
(* class ArgumentParser(argparse.ArgumentParser)                         *)
(* --------------------------------------------------------------------- *)

(* def error(self, message):
       self.print_help(sys.stderr)
       print(file=sys.stderr)
       print(message, file=sys.stderr)
       raise SystemExit(2) *)
Definition error {A} (self : ref) (message : string) : M A :=
  argparse.print_help_err self ;;;
  print_err (Line "") ;;;
  print_err (Line message) ;;;
  raise (SystemExit (ExitCode 2)).

(* def add_subparsers(self):
       raise NotImplementedError("add_subparsers has been disabled") *)
Definition add_subparsers (self : ref) : M ref :=
  raise (Exception "NotImplementedError" "add_subparsers has been disabled").

(* The prefix that sub-parsers inherit: prog followed by the positionals
   declared so far, as argparse's usage formatter writes them. *)
Definition prog_prefix (h : list object) (p : ArgumentParser) : string :=
  Str.join " "
    (prog p :: concat (List.map (argparse.usage_part h)
                         (List.filter argparse.is_positional (_actions p)))).

(* argparse.ArgumentParser.add_subparsers(title=...), which the property
   below reaches through super(): a second call on one parser is a usage
   error; the new action is appended to the parser's actions. *)
Definition super_add_subparsers (self : ref) (title : string) : M ref :=
  p <- get_parser self ;;
  if existsb argparse.is_subparsers (_actions p) then
    error self "cannot have multiple subparser arguments"
  else
    h <- get_heap ;;
    a <- alloc (OSubParsers {| title := title; sub_metavar := None;
                               _prog_prefix := prog_prefix h p;
                               _choices_actions := [];
                               _name_parser_map := [] |}) ;;
    set_parser self
      {| prog := prog p; parser_description := parser_description p;
         epilog := epilog p;
         _actions := _actions p
                     ++ [{| option_strings := []; dest := "==SUPPRESS==";
                            kind := SubParsersActionRef a; default := None;
                            help := HelpAbsent; metavar := None |}];
         _defaults := _defaults p; subparsers_attr := subparsers_attr p |} ;;;
    ret a.

(* @property
   def subparsers(self):
       try:
           return self.__subparsers
       except AttributeError:
           parent = super(ArgumentParser, self)
           self.__subparsers = parent.add_subparsers(title="drill down")
           self.__subparsers.metavar = "COMMAND"
           return self.__subparsers *)
Definition subparsers (self : ref) : M ref :=
  p <- get_parser self ;;
  match subparsers_attr p with
  | Some a => ret a
  | None =>
      a <- super_add_subparsers self "drill down" ;;
      p <- get_parser self ;;
      set_parser self
        {| prog := prog p; parser_description := parser_description p;
           epilog := epilog p; _actions := _actions p;
           _defaults := _defaults p; subparsers_attr := Some a |} ;;;
      s <- get_action a ;;
      set_action a
        {| title := title s; sub_metavar := Some "COMMAND";
           _prog_prefix := _prog_prefix s;
           _choices_actions := _choices_actions s;
           _name_parser_map := _name_parser_map s |} ;;;
      ret a
  end.

(* ArgumentParser(description=..., prog=..., epilog=...): __init__ only
   picks the formatter class before deferring to argparse. *)
Definition ArgumentParser_new (description prog epilog : string) : M ref :=
  argparse.new prog description epilog.

(* argparse._SubParsersAction.add_parser(name, help=, description=,
   epilog=): the new parser, of the class of the parent, is stored under
   name.  Where the interpreter's argparse checks for a conflicting
   sub-parser, a name already in the map raises ArgumentError before
   anything is changed. *)
Definition add_parser (env : environment) (a : ref) (name : string)
  (help description epilog : string) : M ref :=
  s <- get_action a ;;
  if conflicting_subparser_check env
     && bool_decide (is_Some (dict_get (_name_parser_map s) name))
  then
    raise (Exception "ArgumentError"
             ("argument " ++ argparse.choices_metavar s
              ++ ": conflicting subparser: " ++ name))
  else
    set_action a
      {| title := title s; sub_metavar := sub_metavar s;
         _prog_prefix := _prog_prefix s;
         _choices_actions := _choices_actions s ++ [(name, help)];
         _name_parser_map := _name_parser_map s |} ;;;
    r <- ArgumentParser_new description (_prog_prefix s ++ " " ++ name) epilog ;;
    s <- get_action a ;;
    set_action a
      {| title := title s; sub_metavar := sub_metavar s;
         _prog_prefix := _prog_prefix s;
         _choices_actions := _choices_actions s;
         _name_parser_map := dict_set (_name_parser_map s) name r |} ;;;
    ret r.

(* --------------------------------------------------------------------- *)
(* class Command and its subclasses: construction                        *)
(* --------------------------------------------------------------------- *)

Definition positional (dest metavar : string) (nargs : nargs_t)
  (type : arg_type) (help : help_t) : Action :=
  {| option_strings := []; dest := dest; kind := StoreAction nargs type;
     default := Some VNone; help := help; metavar := Some metavar |}.

Definition store_true (options : list string) (dest : string) (help : help_t)
  : Action :=
  {| option_strings := options; dest := dest; kind := StoreTrueAction;
     default := Some (VBool false); help := help; metavar := None |}.

(* cls(parser): each __init__ calls Command.__init__, which keeps the
   parser, and then declares the arguments of the command. *)
Definition Command_init (i : implementation) (parser : ref) : M unit :=
  match i with
  | login =>
      argparse.add_argument parser
        (positional "profile_name" "profile-name" NargsNone TypeStr
           (HelpText "The name with which you will later refer to this remote server and credentials within this tool.")) ;;;
      argparse.add_argument parser
        {| option_strings := []; dest := "url";
           kind := StoreAction NargsNone TypeApiUrl; default := Some VNone;
           help := HelpText "The URL of the remote API, e.g. http://example.com/MAAS/ or http://example.com/MAAS/api/1.0/ if you wish to specify the API version.";
           metavar := None |} ;;;
      argparse.add_argument parser
        {| option_strings := []; dest := "credentials";
           kind := StoreAction NargsOptional TypeStr; default := Some VNone;
           help := HelpText "The credentials, also known as the API key, for the remote MAAS server. These can be found in the user preferences page in the web UI; they take the form of a long random-looking string composed of three parts, separated by colons.";
           metavar := None |} ;;;
      argparse.add_argument parser
        (store_true ["-k"; "--insecure"] "insecure"
           (HelpText "Disable SSL certificate check")) ;;;
      argparse.set_defaults parser [("credentials", VNone)]
  | logout =>
      argparse.add_argument parser
        (positional "profile_name" "profile-name" NargsNone TypeStr
           (HelpText "The name with which a remote server and its credentials are referred to within this tool."))
  | list_profiles | refresh_profiles => ret tt
  | list_nodes | list_tags | list_files | list_users | list_xxx =>
      (* OriginCommand.__init__ *)
      argparse.add_argument parser
        (positional "profile_name" "profile-name" NargsNone TypeStr HelpAbsent)
  end.

Definition Command_new (c : CommandClass) (parser : ref) : M Command :=
  Command_init (impl c) parser ;;;
  ret {| cls := c; parser := parser |}.

(* @classmethod
   def register(cls, parser, name=None):
       help_title, help_body = utils.parse_docstring(cls)
       command_parser = parser.subparsers.add_parser(
           cls.name() if name is None else name, help=help_title,
           description=help_title, epilog=help_body)
       command_parser.set_defaults(execute=cls(command_parser)) *)
Definition register (env : environment) (c : CommandClass) (parser : ref)
  (name : option string) : M unit :=
  a <- subparsers parser ;;
  command_parser <-
    add_parser env a
      (match name with None => Command_name (cls_name c) | Some n => n end)
      (help_title c) (help_title c) (help_body c) ;;
  execute <- Command_new c command_parser ;;
  argparse.set_defaults command_parser [("execute", VCommand execute)].

Definition cmd_login : CommandClass :=
  {| cls_name := "cmd_login";
     help_title := "Log in to a remote API, and remember its description and credentials.";
     help_body := "If credentials are not provided on the command-line, they will be prompted for interactively.";
     impl := login |}.

Definition cmd_logout : CommandClass :=
  {| cls_name := "cmd_logout";
     help_title := "Log out of a remote API, purging any stored credentials.";
     help_body := "This will remove the given profile from your command-line  client.  You can re-create it by logging in again later.";
     impl := logout |}.

Definition cmd_list_profiles : CommandClass :=
  {| cls_name := "cmd_list_profiles";
     help_title := "List remote APIs that have been logged-in to.";
     help_body := ""; impl := list_profiles |}.

Definition cmd_refresh_profiles : CommandClass :=
  {| cls_name := "cmd_refresh_profiles";
     help_title := "Refresh the API descriptions of all profiles.";
     help_body := "This retrieves the latest version of the help information for each profile.  Use it to update your command-line client's information after an upgrade to the MAAS server.";
     impl := refresh_profiles |}.

Definition cmd_list_nodes : CommandClass :=
  {| cls_name := "cmd_list_nodes"; help_title := "List nodes.";
     help_body := ""; impl := list_nodes |}.

Definition cmd_list_tags : CommandClass :=
  {| cls_name := "cmd_list_tags"; help_title := "List tags.";
     help_body := ""; impl := list_tags |}.

Definition cmd_list_files : CommandClass :=
  {| cls_name := "cmd_list_files"; help_title := "List files.";
     help_body := ""; impl := list_files |}.

Definition cmd_list_users : CommandClass :=
  {| cls_name := "cmd_list_users"; help_title := "List users.";
     help_body := ""; impl := list_users |}.

Definition cmd_list_xxx : CommandClass :=
  {| cls_name := "cmd_list_xxx"; help_title := "List xxxs.";
     help_body := ""; impl := list_xxx |}.

(* def prepare_parser(argv) *)
Definition prepare_parser (env : environment) (argv : list string) : M ref :=
  prog <- match argv with
          | a :: _ => ret a
          | [] => raise (Exception "IndexError" "list index out of range")
          end ;;
  parser <- ArgumentParser_new "Interact with a remote MAAS server." prog
              "http://maas.ubuntu.com/" ;;
  register env cmd_login parser None ;;;
  register env cmd_logout parser None ;;;
  register env cmd_list_profiles parser None ;;;
  register env cmd_refresh_profiles parser None ;;;
  register env cmd_list_nodes parser None ;;;
  register env cmd_list_tags parser None ;;;
  register env cmd_list_files parser None ;;;
  register env cmd_list_users parser None ;;;
  argparse.add_argument parser
    (store_true ["--debug"] "debug" HelpSuppress) ;;;
  ret parser.

(* --------------------------------------------------------------------- *)
(* argparse: parse_args                                                  *)
(*                                                                       *)
(* The documented behaviour for the argument shapes flesh.py declares:   *)
(* option strings are recognised when spelled in full; "--" ends option  *)
(* recognition and is dropped; positionals are matched against each run  *)
(* of non-option arguments, as many of them as the run can satisfy; a    *)
(* sub-parser action takes the command name and hands every remaining    *)
(* argument to the chosen parser.  Abbreviated or "=" joined options and *)
(* positionals declared after a sub-parser action are outside the model. *)
(* --------------------------------------------------------------------- *)

Module Parse.

Definition is_digit (c : ascii) : bool :=
  let n := nat_of_ascii c in (48 <=? n)%nat && (n <=? 57)%nat.

Fixpoint digits (s : string) : bool :=
  match s with
  | EmptyString => false
  | String c EmptyString => is_digit c
  | String c rest => is_digit c && digits rest
  end.

Fixpoint drop_digits (s : string) : string :=
  match s with
  | String c rest => if is_digit c then drop_digits rest else s
  | EmptyString => s
  end.

(* '^-\d+$|^-\d*\.\d+$' *)
Definition negative_number (s : string) : bool :=
  match s with
  | String "-" rest =>
      digits rest
      || match drop_digits rest with
         | String "." frac => digits frac
         | _ => false
         end
  | _ => false
  end.

Fixpoint contains_space (s : string) : bool :=
  match s with
  | EmptyString => false
  | String c rest => Ascii.eqb c " " || contains_space rest
  end.

Definition known (p : ArgumentParser) (arg : string) : option Action :=
  List.find (fun a => existsb (String.eqb arg) (option_strings a))
    (_actions p).

(* Whether the parser reads arg as an option string. *)
Definition is_option (p : ArgumentParser) (arg : string) : bool :=
  match known p arg with
  | Some _ => true
  | None =>
      match arg with
      | String "-" (String _ _) =>
          negb (negative_number arg) && negb (contains_space arg)
      | _ => false
      end
  end.

(* The number of positional arguments at the head of args. *)
Fixpoint run_length (p : ArgumentParser) (enabled : bool)
  (args : list string) : nat :=
  match args with
  | [] => 0
  | a :: rest =>
      if enabled then
        if String.eqb a "--" then run_length p false rest
        else if is_option p a then 0
        else S (run_length p true rest)
      else S (run_length p false rest)
  end.

Definition needs (a : Action) : nat :=
  match kind a with StoreAction NargsOptional _ => 0 | _ => 1 end.

(* The longest prefix of the pending positionals that n arguments can
   satisfy, and the positionals left pending. *)
Fixpoint reach (ps : list Action) (n : nat) : list Action * list Action :=
  match ps with
  | [] => ([], [])
  | a :: ps' =>
      if (needs a <=? n)%nat then
        if argparse.is_subparsers a then ([a], ps')
        else let '(m, r) := reach ps' (n - needs a) in (a :: m, r)
      else ([], ps)
  end.

Definition required (ps : list Action) : nat :=
  list_sum (List.map needs ps).

(* Which of the matched positionals receive an argument: an optional one
   does when enough arguments remain for those that follow. *)
Fixpoint takers (matched : list Action) (m : nat) : list (Action * bool) :=
  match matched with
  | [] => []
  | a :: rest =>
      if (needs a =? 1)%nat then (a, true) :: takers rest (m - 1)
      else if (required rest <? m)%nat then (a, true) :: takers rest (m - 1)
      else (a, false) :: takers rest m
  end.

Definition set_default (ns : Namespace) (a : Action) : Namespace :=
  match default a with
  | Some v => setattr ns (dest a) v
  | None => ns
  end.

(* consume_positionals at the head of a run of n arguments: the queue of
   positionals that each take one argument, the positionals still pending
   and the namespace after those matched with nothing took their
   default. *)
Definition plan (ps : list Action) (n : nat) (ns : Namespace)
  : list Action * list Action * Namespace :=
  let '(matched, pending) := reach ps n in
  let t := takers matched n in
  (List.map fst (List.filter snd t), pending,
   fold_left set_default
     (List.map fst (List.filter (fun x => negb (snd x)) t)) ns).

Definition init_namespace (p : ArgumentParser) : Namespace :=
  let ns :=
    fold_left
      (fun ns a =>
         match default a with
         | Some v => if hasattr ns (dest a) then ns else setattr ns (dest a) v
         | None => ns
         end)
      (_actions p) [] in
  fold_left
    (fun ns kv => if hasattr ns (fst kv) then ns
                  else setattr ns (fst kv) (snd kv))
    (_defaults p) ns.

Definition merge (ns sub : Namespace) : Namespace :=
  fold_left (fun ns kv => setattr ns (fst kv) (snd kv)) sub ns.

Definition repr (s : string) : string := "'" ++ s ++ "'".

(* _get_value: the type= conversion of one argument *)
Definition convert (env : environment) (self : ref) (a : Action)
  (arg : string) : M value :=
  match kind a with
  | StoreAction _ TypeApiUrl =>
      match api_url env arg with
      | Some u => ret (VStr u)
      | None =>
          error self ("argument " ++ argparse.metavar_of a
                      ++ ": invalid api_url value: " ++ repr arg)
      end
  | _ => ret (VStr arg)
  end.

(* The end of parse_known_args: positionals that match nothing take their
   default, and a pending positional that needs an argument is an error. *)
Definition finish (self : ref) (ps : list Action) (ns : Namespace)
  (extras : list string) : M (Namespace * list string) :=
  let '(_, pending, ns) := plan ps 0 ns in
  match List.filter (fun a => negb (argparse.is_subparsers a)
                              && (needs a =? 1)%nat) pending with
  | [] => ret (ns, extras)
  | missing =>
      error self ("the following arguments are required: "
                  ++ Str.join ", " (List.map argparse.metavar_of missing))
  end.

Definition positionals (p : ArgumentParser) : list Action :=
  List.filter argparse.is_positional (_actions p).

Fixpoint parse_loop (env : environment) (h : list object) (self : ref)
  (p : ArgumentParser) (ps queue : list Action) (fresh enabled : bool)
  (ns : Namespace) (extras : list string) (args : list string)
  {struct args} : M (Namespace * list string) :=
  match args with
  | [] => finish self ps ns extras
  | a :: rest =>
      if enabled && String.eqb a "--" then
        parse_loop env h self p ps queue fresh false ns extras rest
      else if enabled && is_option p a then
        match known p a with
        | Some act =>
            match kind act with
            | StoreTrueAction =>
                parse_loop env h self p ps [] true enabled
                  (setattr ns (dest act) (VBool true)) extras rest
            | HelpAction =>
                argparse.print_help self ;;;
                raise (SystemExit (ExitCode 0))
            | _ =>
                parse_loop env h self p ps [] true enabled ns
                  (extras ++ [a]) rest
            end
        | None =>
            parse_loop env h self p ps [] true enabled ns
              (extras ++ [a]) rest
        end
      else
        let '(queue, ps, ns) :=
          if fresh then plan ps (run_length p enabled args) ns
          else (queue, ps, ns) in
        match queue with
        | [] =>
            parse_loop env h self p ps [] false enabled ns
              (extras ++ [a]) rest
        | act :: queue =>
            match kind act with
            | SubParsersActionRef sa =>
                match h !! sa with
                | Some (OSubParsers s) =>
                    match dict_get (_name_parser_map s) a with
                    | Some sub =>
                        match h !! sub with
                        | Some (OParser sp) =>
                            r <- parse_loop env h sub sp (positionals sp) []
                                   true true (init_namespace sp) [] rest ;;
                            finish self ps (merge ns (fst r))
                              (extras ++ snd r)
                        | _ => no_such_object
                        end
                    | None =>
                        error self
                          ("argument " ++ argparse.choices_metavar s
                           ++ ": invalid choice: " ++ repr a
                           ++ " (choose from "
                           ++ Str.join ", "
                                (List.map repr
                                   (dict_keys (_name_parser_map s)))
                           ++ ")")
                    end
                | _ => no_such_object
                end
            | _ =>
                v <- convert env self act a ;;
                parse_loop env h self p ps queue false enabled
                  (setattr ns (dest act) v) extras rest
            end
        end
  end.

(* parser.parse_args(args) *)
Definition parse_args (env : environment) (self : ref) (args : list string)
  : M Namespace :=
  p <- get_parser self ;;
  h <- get_heap ;;
  r <- parse_loop env h self p (positionals p) [] true true
         (init_namespace p) [] args ;;
  match snd r with
  | [] => ret (fst r)
  | extras =>
      error self ("unrecognized arguments: " ++ Str.join " " extras)
  end.

End Parse.

(* --------------------------------------------------------------------- *)
(* Tables                                                                *)
(* --------------------------------------------------------------------- *)

(* def check_valid_apikey(_1, _2, _3):  # TODO
       return True *)
Definition check_valid_apikey (_1 : string) (_2 : Credentials) (_3 : bool)
  : result bool :=
  Ok true.

(* def colorized(text) *)
Definition colorized (env : environment) (t : string) : text :=
  if isatty env then Color t else Plain (value_no_colors env t).

(* def prep(cell) *)
Definition prep (c : cell) : text :=
  match c with
  | CNone => Plain ""
  | CText t => t
  | CInt z => Plain (Str.of_int z)
  end.

(* def prep_table(data, prep=prep) *)
Definition prep_table (data : list (list cell)) : list (list text) :=
  List.map (List.map prep) data.

(* def make_table(data) and def print_table(data): a SingleTable on a
   terminal, an AsciiTable otherwise, over the prepared data *)
Definition print_table (env : environment) (data : list (list cell)) : M unit :=
  print (Table (isatty env) (prep_table data)).

Definition str_cell (s : string) : cell := CText (Plain s).

Definition opt_cell (o : option string) : cell :=
  match o with Some s => str_cell s | None => CNone end.

(* sorted(iterable, key=...) with str keys: ascending, and stable *)
Section Sorted.
Context {A : Type} (key : A -> string).

Fixpoint insert_sorted (x : A) (l : list A) : list A :=
  match l with
  | [] => [x]
  | y :: rest =>
      if String.leb (key x) (key y) then x :: y :: rest
      else y :: insert_sorted x rest
  end.

Fixpoint sorted (l : list A) : list A :=
  match l with
  | [] => []
  | x :: rest => insert_sorted x (sorted rest)
  end.
End Sorted.

(* A tuple whose first component is a str: the rows that the list
   commands build.  itemgetter(0) is the first projection. *)
Definition row : Type := string * list cell.

Definition itemgetter0 (r : row) : string := fst r.

Definition cells (r : row) : list cell := str_cell (fst r) :: snd r.

(* --------------------------------------------------------------------- *)
(* The profile store behind utils.ProfileConfig.open()                   *)
(* --------------------------------------------------------------------- *)

(* utils.ProfileConfig is not part of flesh.py.  The handle that
   ProfileConfig.open() yields is the whole mapping of the store, and what
   the body of the with block wrote is kept whether or not the body
   raised. *)
Module ProfileConfig.

(** Modelled from the spec: the NotFound failure of utils.ProfileConfig,
    a KeyError on the name. *)
Definition not_found {A} (profile_name : string) : M A :=
  raise (Exception "KeyError" (Parse.repr profile_name)).

(** Modelled from the spec: utils.ProfileConfig, config[profile_name];
    reading a profile by name fails with NotFound if it is absent. *)
Definition getitem (profile_name : string) : M Profile :=
  config <- get_store ;;
  match config !! profile_name with
  | Some profile => ret profile
  | None => not_found profile_name
  end.

(** Modelled from the spec: utils.ProfileConfig,
    config[profile_name] = profile; writing creates or replaces. *)
Definition setitem (profile_name : string) (profile : Profile) : M unit :=
  config <- get_store ;;
  put_store (<[profile_name := profile]> config).

(** Modelled from the spec: utils.ProfileConfig, del config[profile_name];
    deleting a profile by name fails with NotFound if it is absent. *)
Definition delitem (profile_name : string) : M unit :=
  config <- get_store ;;
  match config !! profile_name with
  | Some _ => put_store (delete profile_name config)
  | None => not_found profile_name
  end.

(** Modelled from the spec: utils.ProfileConfig, iter(config); the
    profile names are enumerated, in an order that is not specified. *)
Definition names : M (list string) :=
  config <- get_store ;;
  ret (elements (dom config)).

End ProfileConfig.

(* --------------------------------------------------------------------- *)
(* The commands                                                          *)
(* --------------------------------------------------------------------- *)

(* options.<name> *)
Definition attr (options : Namespace) (k : string) : M value :=
  match getattr options k with
  | Some v => ret v
  | None =>
      raise (Exception "AttributeError"
               ("'Namespace' object has no attribute " ++ Parse.repr k))
  end.

Definition as_str (v : value) : string :=
  match v with VStr s => s | _ => "" end.

Definition as_opt_str (v : value) : option string :=
  match v with VStr s => Some s | _ => None end.

Definition truthy (v : value) : bool :=
  match v with
  | VNone => false
  | VBool b => b
  | VStr s => negb (String.eqb s "")
  | VCommand _ => true
  end.

Definition is_CallError (e : exn) : bool :=
  match e with Exception c _ => String.eqb c "CallError" | _ => false end.

Definition str_of (e : exn) : string :=
  match e with Exception _ msg => msg | _ => "" end.

(* The check at the head of cmd_login.__call__:
     if credentials is not None:
         try:
             valid_apikey = check_valid_apikey(
                 options.url, credentials, options.insecure)
         except CallError as e:
             raise SystemExit("%s" % e)
         else:
             if not valid_apikey:
                 raise SystemExit("The MAAS server rejected your API key.") *)
Definition login_check (url : string) (credentials : option Credentials)
  (insecure : bool) : M unit :=
  match credentials with
  | Some c =>
      valid_apikey <-
        try_except (lift (check_valid_apikey url c insecure)) is_CallError
          (fun e => raise (SystemExit (ExitMsg (str_of e)))) ;;
      if negb valid_apikey then
        raise (SystemExit (ExitMsg "The MAAS server rejected your API key."))
      else ret tt
  | None => ret tt
  end.

(* cmd_login.print_whats_next *)
Definition print_whats_next (profile : Profile) : M unit :=
  print (Line "") ;;;
  print (Filled ("You are now logged in to the MAAS server at "
                 ++ url profile ++ " with the profile name '"
                 ++ name profile ++ "'.")) ;;;
  print (Line "") ;;;
  print (Filled "For help with the available commands, try:") ;;;
  print (Line "") ;;;
  print (Filled "  maas --help") ;;;
  print (Line "").

(* cmd_login.__call__ *)
Definition login_call (env : environment) (options : Namespace) : M unit :=
  given <- attr options "credentials" ;;
  credentials <- lift (obtain_credentials env (as_opt_str given)) ;;
  url_ <- attr options "url" ;;
  insecure <- attr options "insecure" ;;
  login_check (as_str url_) credentials (truthy insecure) ;;;
  session_description <-
    lift (fromURL env (as_str url_) credentials (truthy insecure)) ;;
  profile_name <- attr options "profile_name" ;;
  ProfileConfig.setitem (as_str profile_name)
    {| credentials := credentials; description := session_description;
       name := as_str profile_name; url := as_str url_ |} ;;;
  profile <- ProfileConfig.getitem (as_str profile_name) ;;
  print_whats_next profile.

(* cmd_logout.__call__ *)
Definition logout_call (options : Namespace) : M unit :=
  profile_name <- attr options "profile_name" ;;
  ProfileConfig.delitem (as_str profile_name).

(* The loop of cmd_list_profiles.__call__ over sorted(config) *)
Fixpoint profile_rows (profile_names : list string) (rows : list (list cell))
  : M (list (list cell)) :=
  match profile_names with
  | [] => ret rows
  | profile_name :: rest =>
      profile <- ProfileConfig.getitem profile_name ;;
      match credentials profile with
      | None =>
          profile_rows rest
            (rows ++ [[str_cell profile_name; str_cell (url profile);
                       str_cell "(anonymous)"]])
      | Some _ =>
          profile_rows rest
            (rows ++ [[str_cell profile_name; str_cell (url profile)]])
      end
  end.

(* cmd_list_profiles.__call__ *)
Definition list_profiles_call (env : environment) (options : Namespace)
  : M unit :=
  config <- ProfileConfig.names ;;
  rows <- profile_rows (sorted id config)
            [[str_cell "Profile name"; str_cell "URL"]] ;;
  print_table env rows.

(* Credentials( *creds ): unpacking None is a TypeError *)
Definition Credentials_from (creds : option Credentials) : M Credentials :=
  match creds with
  | Some c => ret c
  | None =>
      raise (Exception "TypeError"
               "type object argument after * must be an iterable, not NoneType")
  end.

(* The loop of cmd_refresh_profiles.__call__ *)
Fixpoint refresh_each (env : environment) (profile_names : list string)
  : M unit :=
  match profile_names with
  | [] => ret tt
  | profile_name :: rest =>
      profile <- ProfileConfig.getitem profile_name ;;
      creds <- Credentials_from (credentials profile) ;;
      session_description <-
        lift (fromURL env (url profile) (Some creds) false) ;;
      ProfileConfig.setitem profile_name
        {| credentials := credentials profile;
           description := session_description;
           name := name profile; url := url profile |} ;;;
      refresh_each env rest
  end.

(* cmd_refresh_profiles.__call__ *)
Definition refresh_profiles_call (env : environment) (options : Namespace)
  : M unit :=
  config <- ProfileConfig.names ;;
  refresh_each env config.

(* cmd_list_nodes.status_colours and power_colours *)
Definition status_colours : list (string * string) :=
  [("Commissioning", "autoyellow"); ("Failed commissioning", "autored");
   ("Missing", "red"); ("Ready", "autogreen"); ("Reserved", "autoblue");
   ("Allocated", "autoblue"); ("Deploying", "autoblue");
   ("Deployed", "autoblue"); ("Broken", "autored");
   ("Failed deployment", "autored"); ("Releasing", "autoblue");
   ("Releasing failed", "autored"); ("Disk erasing", "autoblue");
   ("Failed disk erasing", "autored")].

Definition power_colours : list (string * string) :=
  [("on", "autogreen"); ("error", "autored")].

(* "{%s}%s{/%s}" % (colour, text, colour) *)
Definition markup (colour t : string) : string :=
  "{" ++ colour ++ "}" ++ t ++ "{/" ++ colour ++ "}".

Definition colourised_status (env : environment) (node : Node) : text :=
  let status := substatus_name node in
  match dict_get status_colours status with
  | Some colour => colorized env (markup colour status)
  | None => Plain status
  end.

Definition colourised_power (env : environment) (node : Node) : text :=
  let state := power_state node in
  match dict_get power_colours state with
  | Some colour => colorized env (markup colour (Str.capitalize state))
  | None => Plain (Str.capitalize state)
  end.

(* cmd_list_nodes.execute *)
Definition list_nodes_execute (env : environment) (origin : Profile)
  (options : Namespace) : M unit :=
  let head := [List.map str_cell ["Hostname"; "System ID"; "Arch"; "#CPUs";
                                  "RAM"; "Status"; "Power"]] in
  nodes <- lift (Nodes env origin) ;;
  let body : list row :=
    List.map (fun node =>
                (hostname node,
                 [str_cell (system_id node); str_cell (architecture node);
                  CInt (cpus node); CInt (memory node);
                  CText (colourised_status env node);
                  CText (colourised_power env node)])) nodes in
  let body := sorted itemgetter0 body in
  print_table env (head ++ List.map cells body).

(* cmd_list_tags.execute *)
Definition list_tags_execute (env : environment) (origin : Profile)
  (options : Namespace) : M unit :=
  let head := [List.map str_cell ["Tag name"; "Definition"; "Kernel options";
                                  "Comment"]] in
  tags <- lift (Tags env origin) ;;
  let body : list row :=
    List.map (fun tag =>
                (tag_name tag,
                 [opt_cell (definition tag); opt_cell (kernel_opts tag);
                  opt_cell (comment tag)])) tags in
  let body := sorted itemgetter0 body in
  print_table env (head ++ List.map cells body).

(* cmd_list_files.execute *)
Definition list_files_execute (env : environment) (origin : Profile)
  (options : Namespace) : M unit :=
  let head := [[str_cell "File name"]] in
  files <- lift (Files env origin) ;;
  let body : list row := List.map (fun file => (filename file, [])) files in
  let body := sorted itemgetter0 body in
  print_table env (head ++ List.map cells body).

(* cmd_list_users.execute *)
Definition list_users_execute (env : environment) (origin : Profile)
  (options : Namespace) : M unit :=
  let head := [List.map str_cell ["User name"; "Email address"; "Admin?"]] in
  users <- lift (Users env origin) ;;
  let body : list row :=
    List.map (fun user =>
                (username user,
                 [str_cell (email user);
                  CText (colorized env
                           (if is_admin user then "{autogreen}Yes{/autogreen}"
                            else "No"))])) users in
  let body := sorted itemgetter0 body in
  print_table env (head ++ List.map cells body).

(* cmd_list_xxx.execute *)
Definition list_xxx_execute (env : environment) (origin : Profile)
  (options : Namespace) : M unit :=
  xxxs <- lift (Xxxs env origin) ;;
  first <- match xxxs with
           | x :: _ => ret x
           | [] => raise (Exception "IndexError" "list index out of range")
           end ;;
  let fields := sorted id (dict_keys first) in
  let head := [List.map str_cell fields] in
  let body :=
    List.map (fun xxx =>
                List.map (fun field =>
                            match dict_get xxx field with
                            | Some c => c
                            | None => CNone
                            end) fields) xxxs in
  print_table env (head ++ body).

(** Modelled from the spec: bones.SessionAPI.fromProfileName and
   viscera.Origin are not part of flesh.py.  The named profile is looked
   up in the store, failing with the NotFound kind when it is absent, and
   the origin of its session is the one the environment serves for it. *)
Definition fromProfileName (profile_name : string) : M Profile :=
  ProfileConfig.getitem profile_name.

(* OriginCommand.__call__ followed by the execute of the subclass *)
Definition OriginCommand_call
  (execute : Profile -> Namespace -> M unit) (options : Namespace) : M unit :=
  profile_name <- attr options "profile_name" ;;
  origin <- fromProfileName (as_str profile_name) ;;
  execute origin options.

(* execute(options), where execute is the instance bound at registration *)
Definition Command_call (env : environment) (c : Command)
  (options : Namespace) : M unit :=
  match impl (cls c) with
  | login => login_call env options
  | logout => logout_call options
  | list_profiles => list_profiles_call env options
  | refresh_profiles => refresh_profiles_call env options
  | list_nodes => OriginCommand_call (list_nodes_execute env) options
  | list_tags => OriginCommand_call (list_tags_execute env) options
  | list_files => OriginCommand_call (list_files_execute env) options
  | list_users => OriginCommand_call (list_users_execute env) options
  | list_xxx => OriginCommand_call (list_xxx_execute env) options
  end.

(* --------------------------------------------------------------------- *)
(* main                                                                  *)
(* --------------------------------------------------------------------- *)

(* The two except clauses of main.  options is None while the name is
   still unbound, which is the case when parse_args itself raised. *)
Definition handle (parser : ref) (options : option Namespace) (e : exn)
  : M unit :=
  match e with
  | KeyboardInterrupt => raise (SystemExit (ExitCode 1))
  | Exception _ msg =>
      match options with
      | Some options =>
          debug <- attr options "debug" ;;
          if truthy debug then raise e
          else error parser msg
      | None =>
          raise (Exception "UnboundLocalError"
                   "local variable 'options' referenced before assignment")
      end
  | SystemExit _ => raise e
  end.

(* try:
       execute = options.execute
   except AttributeError:
       parser.error("No arguments given.")
   else:
       execute(options) *)
Definition dispatch (env : environment) (parser : ref) (options : Namespace)
  : M unit :=
  match getattr options "execute" with
  | None => error parser "No arguments given."
  | Some (VCommand execute) => Command_call env execute options
  | Some _ => raise (Exception "TypeError" "object is not callable")
  end.

(* def main(argv=sys.argv); argcomplete.autocomplete(parser) returns at
   once outside a completion request of the shell *)
Definition main (env : environment) (argv : list string) : M unit :=
  parser <- prepare_parser env argv ;;
  fun w =>
    match Parse.parse_args env parser (List.tl argv) w with
    | (Raise e, w) => handle parser None e w
    | (Ok options, w) =>
        match dispatch env parser options w with
        | (Raise e, w) => handle parser (Some options) e w
        | (Ok tt, w) => (Ok tt, w)
        end
    end.

(* --------------------------------------------------------------------- *)
(* Notions used to state the properties                                  *)
(* --------------------------------------------------------------------- *)

Definition set_heap (h : list object) (w : world) : world :=
  {| heap := h; store := store w; stdout := stdout w; stderr := stderr w |}.

(* The child-registration facility a parser node holds, if any. *)
Definition facility_of (w : world) (self : ref) : option ref :=
  match heap w !! self with
  | Some (OParser p) => subparsers_attr p
  | _ => None
  end.

Definition is_facility (o : object) : bool :=
  match o with OSubParsers _ => true | OParser _ => false end.

(* How many child-registration facilities have been allocated. *)
Definition facilities (h : list object) : nat :=
  length (List.filter is_facility h).

(* Everything a client can ask of a parser node other than reading its
   subparsers property. *)
Inductive parser_call :=
| call_add_argument (a : Action)
| call_set_defaults (kwargs : list (string * value))
| call_add_subparsers
| call_print_help
| call_error (message : string)
| call_parse_args (args : list string).

Definition perform (env : environment) (self : ref) (c : parser_call)
  : M unit :=
  match c with
  | call_add_argument a => argparse.add_argument self a
  | call_set_defaults kwargs => argparse.set_defaults self kwargs
  | call_add_subparsers => add_subparsers self ;;; ret tt
  | call_print_help => argparse.print_help self
  | call_error message => error self message
  | call_parse_args args => Parse.parse_args env self args ;;; ret tt
  end.

(* A sequence of such calls, each one made whatever the one before it
   returned or raised. *)
Fixpoint perform_all (env : environment) (self : ref)
  (cs : list parser_call) (w : world) : world :=
  match cs with
  | [] => w
  | c :: rest => perform_all env self rest (snd (perform env self c w))
  end.

(* The parser node p once its subparsers property has been read for the
   first time and produced the facility at a, and the facility as it is
   created for a node p in heap h. *)
Definition opened (p : ArgumentParser) (a : ref) : ArgumentParser :=
  {| prog := prog p; parser_description := parser_description p;
     epilog := epilog p;
     _actions := _actions p
                 ++ [{| option_strings := []; dest := "==SUPPRESS==";
                        kind := SubParsersActionRef a; default := None;
                        help := HelpAbsent; metavar := None |}];
     _defaults := _defaults p; subparsers_attr := Some a |}.

Definition fresh_facility (h : list object) (p : ArgumentParser)
  : SubParsersAction :=
  {| title := "drill down"; sub_metavar := Some "COMMAND";
     _prog_prefix := prog_prefix h p; _choices_actions := [];
     _name_parser_map := [] |}.

(* Keys in ascending order, as str compares. *)
Definition ascending (keys : list string) : Prop :=
  Sorted (fun a b => String.leb a b = true) keys.

Definition first_column (rows : list (list text)) : list text :=
  List.map (hd (Plain "")) rows.

(* Running m in w prints exactly one table, on stdout, whose rows below the
   header carry in their first column the given names in ascending order. *)
Definition prints_sorted (env : environment) (m : M unit) (w : world)
  (names : list string) : Prop :=
  exists header rows keys,
    m w = (Ok tt,
           {| heap := heap w; store := store w;
              stdout := stdout w ++ [Table (isatty env) (header :: rows)];
              stderr := stderr w |})
    /\ first_column rows = List.map Plain keys
    /\ ascending keys
    /\ Permutation keys names.

(* The row that list-profiles prints for a stored profile. *)
Definition profile_row (config : gmap string Profile) (profile_name : string)
  : list cell :=
  match config !! profile_name with
  | Some profile =>
      match credentials profile with
      | None => [str_cell profile_name; str_cell (url profile);
                 str_cell "(anonymous)"]
      | Some _ => [str_cell profile_name; str_cell (url profile)]
      end
  | None => []
  end.

(* The command names registered on a parser node. *)
Definition registered_names (w : world) (parser : ref) : list string :=
  match facility_of w parser with
  | Some a =>
      match heap w !! a with
      | Some (OSubParsers s) => dict_keys (_name_parser_map s)
      | _ => []
      end
  | None => []
  end.

(* Whether a help text lists the given name as an entry of a group. *)
Definition mentions (doc : help_doc) (n : string) : bool :=
  existsb (fun g => existsb (fun e => String.eqb n (fst e)) (entries g))
    (groups doc).

(* What refresh-profiles may change of a stored profile. *)
Definition same_but_description (p p' : Profile) : Prop :=
  credentials p' = credentials p /\ url p' = url p /\ name p' = name p.

(* The store after is the store before up to the descriptions. *)
Definition only_descriptions_differ (w w' : world) : Prop :=
  heap w' = heap w /\ stdout w' = stdout w /\ stderr w' = stderr w
  /\ forall n,
      match store w !! n with
      | Some p => exists p', store w' !! n = Some p' /\ same_but_description p p'
      | None => store w' !! n = None
      end.

(* The parser that argparse allocates for a new node. *)
Definition blank_parser (prog description epilog : string) : ArgumentParser :=
  {| prog := prog; parser_description := description; epilog := epilog;
     _actions := [argparse.help_action]; _defaults := [];
     subparsers_attr := None |}.

(* A parser node on which commands can be registered: either its
   subparsers property has not been read and it has no sub-parser action,
   or the facility it holds is in the heap. *)
Definition node_ready (w : world) (parser : ref) : Prop :=
  exists p,
    heap w !! parser = Some (OParser p)
    /\ match subparsers_attr p with
       | None => existsb argparse.is_subparsers (_actions p) = false
       | Some a => exists s, heap w !! a = Some (OSubParsers s)
       end.

(* The handler that dispatch finds for a command name below a node: the
   execute default of the parser stored under that name. *)
Definition handler_of (w : world) (parser : ref) (n : string)
  : option Command :=
  match facility_of w parser with
  | Some a =>
      match heap w !! a with
      | Some (OSubParsers s) =>
          match dict_get (_name_parser_map s) n with
          | Some r =>
              match heap w !! r with
              | Some (OParser p) =>
                  match dict_get (_defaults p) "execute" with
                  | Some (VCommand c) => Some c
                  | _ => None
                  end
              | _ => None
              end
          | None => None
          end
      | _ => None
      end
  | None => None
  end.

(* The name under which register files a command. *)
Definition registered_as (c : CommandClass) (name : option string) : string :=
  match name with
  | None => NamingRule.default_name (cls_name c)
  | Some n => n
  end.

(* The facility s once a command has been filed under name, with the
   given help, at parser r. *)
Definition filed (s : SubParsersAction) (name help : string) (r : ref)
  : SubParsersAction :=
  {| title := title s; sub_metavar := sub_metavar s;
     _prog_prefix := _prog_prefix s;
     _choices_actions := _choices_actions s ++ [(name, help)];
     _name_parser_map := dict_set (_name_parser_map s) name r |}.

(* Whether a command name is already registered below a node. *)
Definition taken (w : world) (parser : ref) (n : string) : bool :=
  match facility_of w parser with
  | Some a =>
      match heap w !! a with
      | Some (OSubParsers s) =>
          match dict_get (_name_parser_map s) n with
          | Some _ => true
          | None => false
          end
      | _ => false
      end
  | None => false
  end.

(* The statement that registering a second command under a name that is
   taken fails while the tree is assembled. *)
Definition duplicate_rejected (env : environment) (c : CommandClass)
  (parser : ref) (name : option string) (w : world) : Prop :=
  taken w parser (registered_as c name) = true ->
  exists e w', register env c parser name w = (Raise e, w').

(* Sample environments: a server that answers, with no credentials typed
   at the prompt, under an argparse without and with the check for
   conflicting sub-parsers; and one whose server refuses every session. *)
Definition legacy : environment :=
  {| isatty := false;
     value_no_colors := fun t => t;
     api_url := fun u => Some u;
     obtain_credentials := fun _ => Ok None;
     fromURL := fun _ _ _ => Ok "description";
     Nodes := fun _ =>
                Ok [{| hostname := "b"; system_id := "2";
                       architecture := "amd64"; cpus := 2; memory := 2048;
                       substatus_name := "Ready"; power_state := "on" |};
                    {| hostname := "a"; system_id := "1";
                       architecture := "amd64"; cpus := 1; memory := 1024;
                       substatus_name := "New"; power_state := "off" |}];
     Tags := fun _ => Ok [];
     Files := fun _ => Ok [];
     Users := fun _ => Ok [];
     Xxxs := fun _ => Ok [];
     conflicting_subparser_check := false |}.

Definition checking : environment :=
  {| isatty := isatty legacy; value_no_colors := value_no_colors legacy;
     api_url := api_url legacy;
     obtain_credentials := obtain_credentials legacy;
     fromURL := fromURL legacy; Nodes := Nodes legacy; Tags := Tags legacy;
     Files := Files legacy; Users := Users legacy; Xxxs := Xxxs legacy;
     conflicting_subparser_check := true |}.

Definition unreachable : environment :=
  {| isatty := isatty legacy; value_no_colors := value_no_colors legacy;
     api_url := api_url legacy;
     obtain_credentials := obtain_credentials legacy;
     fromURL := fun _ _ _ => Raise (Exception "CallError" "boom");
     Nodes := Nodes legacy; Tags := Tags legacy;
     Files := Files legacy; Users := Users legacy; Xxxs := Xxxs legacy;
     conflicting_subparser_check := false |}.

(* A world in which a root parser has just been created, and a stored
   profile without credentials. *)
Definition root_created : world :=
  snd (ArgumentParser_new "Interact with a remote MAAS server." "maas"
         "http://maas.ubuntu.com/" (initial ∅)).

Definition anonymous_dev : Profile :=
  {| credentials := None; description := "old"; name := "dev";
     url := "http://x/" |}.

(* A world in which a root parser has been created and cmd_login has been
   registered on it once. *)
Definition login_registered (env : environment) : world :=
  snd ((parser <- ArgumentParser_new "Interact with a remote MAAS server."
                    "maas" "http://maas.ubuntu.com/" ;;
        register env cmd_login parser None) (initial ∅)).

(* The heap that prepare_parser builds in a fresh process, where the
   root parser is the first object allocated, and the help of that root
   parser. *)
Definition assembled (prog : string) : list object :=
  heap (snd (prepare_parser legacy [prog] (initial ∅))).

Definition root_help (prog : string) : help_doc :=
  match assembled prog !! 0 with
  | Some (OParser p) => argparse.format_help (assembled prog) p
  | _ => {| usage := []; doc_description := ""; groups := [];
            doc_epilog := "" |}
  end.

Definition add_stderr (w : world) (out : list output) : world :=
  {| heap := heap w; store := store w; stdout := stdout w;
     stderr := stderr w ++ out |}.

Definition exits {A} (r : result A) : bool :=
  match r with Raise (SystemExit _) => true | _ => false end.

(* Collaborators that fail, when they fail, with an Exception or with
   KeyboardInterrupt, never by exiting the process themselves. *)
Definition well_behaved (env : environment) : Prop :=
  (forall given, exits (obtain_credentials env given) = false)
  /\ (forall u c i, exits (fromURL env u c i) = false)
  /\ (forall o, exits (Nodes env o) = false)
  /\ (forall o, exits (Tags env o) = false)
  /\ (forall o, exits (Files env o) = false)
  /\ (forall o, exits (Users env o) = false)
  /\ (forall o, exits (Xxxs env o) = false).

(* A computation that leaves the heap and the diagnostic stream alone and
   does not raise SystemExit. *)
Definition polite {A} (m : M A) : Prop :=
  forall w r w',
    m w = (r, w') ->
    heap w' = heap w /\ stderr w' = stderr w /\ exits r = false.

(* The two ways argparse ends the process: a usage error, and help. *)
Definition usage_exit (e : exn) : Prop :=
  e = SystemExit (ExitCode 2) \/ e = SystemExit (ExitCode 0).

(* A computation that, run on heap h, raises nothing but those. *)
Definition usage_only {A} (h : list object) (m : M A) : Prop :=
  forall w r w',
    heap w = h -> m w = (r, w') -> forall e, r = Raise e -> usage_exit e.

(* References held by an action, a parser and a heap lead where argparse
   expects them to. *)
Definition is_parser_at (h : list object) (r : ref) : bool :=
  match h !! r with Some (OParser _) => true | _ => false end.

Definition valid_action (h : list object) (a : Action) : bool :=
  match kind a with
  | SubParsersActionRef sa =>
      match h !! sa with
      | Some (OSubParsers s) =>
          forallb (fun kv => is_parser_at h (snd kv)) (_name_parser_map s)
      | _ => false
      end
  | _ => true
  end.

Definition valid_object (h : list object) (o : object) : bool :=
  match o with
  | OParser p => forallb (valid_action h) (_actions p)
  | OSubParsers _ => true
  end.

Definition well_formed (h : list object) : bool := forallb (valid_object h) h.

(* What main makes of a failure e of the resolved command, given the
   parsed options: with a true debug flag the failure escapes and the
   interpreter exits with 1; with a false one main exits with 2. *)
Definition failure_outcome (options : Namespace) (e : exn) (r : result unit)
  : Prop :=
  match getattr options "debug" with
  | Some debug =>
      if truthy debug then r = Raise e /\ exit_status r = 1%Z
      else r = Raise (SystemExit (ExitCode 2)) /\ exit_status r = 2%Z
  | None => exit_status r = 1%Z
  end.

(* A computation that keeps a relation between the world it starts in and
   the world it ends in, whether it returns or raises. *)
Definition preserves {A} (R : world -> world -> Prop) (m : M A) : Prop :=
  forall w r w', m w = (r, w') -> R w w'.

Definition same_heap (w w' : world) : Prop := heap w' = heap w.

(* --------------------------------------------------------------------- *)
(* Notions for the properties of the commands                            *)
(* --------------------------------------------------------------------- *)

(* A character that may occur in the name of a command: neither an
   underscore nor an upper-case letter of ASCII. *)
Definition name_char (c : ascii) : bool :=
  negb (Ascii.eqb c "_")
  && negb (let n := nat_of_ascii c in (65 <=? n)%nat && (n <=? 90)%nat).

Definition set_store (s : gmap string Profile) (w : world) : world :=
  {| heap := heap w; store := s; stdout := stdout w; stderr := stderr w |}.

Definition add_stdout (w : world) (out : list output) : world :=
  {| heap := heap w; store := store w; stdout := stdout w ++ out;
     stderr := stderr w |}.

(* What cmd_login prints once the profile is saved. *)
Definition whats_next (profile : Profile) : list output :=
  [Line "";
   Filled ("You are now logged in to the MAAS server at "
           ++ url profile ++ " with the profile name '"
           ++ name profile ++ "'.");
   Line "";
   Filled "For help with the available commands, try:";
   Line "";
   Filled "  maas --help";
   Line ""].

(* A stored profile with a new description. *)
Definition refreshed (p : Profile) (d : string) : Profile :=
  {| credentials := credentials p; description := d; name := name p;
     url := url p |}.

(* The commands that derive from OriginCommand. *)
Definition origin_bound (i : implementation) : bool :=
  match i with
  | list_nodes | list_tags | list_files | list_users | list_xxx => true
  | login | logout | list_profiles | refresh_profiles => false
  end.

(* A computation that touches neither the store nor the two streams. *)
Definition same_io (w w' : world) : Prop :=
  store w' = store w /\ stdout w' = stdout w /\ stderr w' = stderr w.

(* A computation that keeps a relation between the world it starts in and
   the world it ends in whenever it returns. *)
Definition returns_keeping {A} (R : world -> world -> Prop) (m : M A) : Prop :=
  forall w a w', m w = (Ok a, w') -> R w w'.

(* The commands that prepare_parser registers, in its order. *)
Definition commands : list CommandClass :=
  [cmd_login; cmd_logout; cmd_list_profiles; cmd_refresh_profiles;
   cmd_list_nodes; cmd_list_tags; cmd_list_files; cmd_list_users].

(* A text that is a str, not a colorclass.Color, and a printed item none
   of whose cells is a Color laid out for a pipe. *)
Definition plain_text (t : text) : bool :=
  match t with Plain _ => true | Color _ => false end.

Definition plain_output (o : output) : bool :=
  match o with
  | Table single data => negb single && forallb (forallb plain_text) data
  | _ => true
  end.

(* A computation that, however it ends, has only added to stdout, and
   only items that satisfy P. *)
Definition prints_only (P : output -> bool) (m : M unit) : Prop :=
  forall w, exists out,
    stdout (snd (m w)) = (stdout w ++ out)%list /\ forallb P out = true.

(* Sample options and stores for the commands. *)
Definition logout_dev : Namespace := [("profile_name", VStr "dev")].

Definition login_dev : Namespace :=
  [("profile_name", VStr "dev"); ("url", VStr "http://x/");
   ("credentials", VNone); ("insecure", VBool false)].

Definition with_key : Profile :=
  {| credentials := Some {| consumer_key := "k"; token_key := "t";
                            token_secret := "s" |};
     description := "old"; name := "prod"; url := "http://y/" |}.

(* ===================================================================== *)
(* Properties                                                            *)
(* ===================================================================== *)

(* --------------------------------------------------------------------- *)
(* Stepping through the monad                                            *)
(* --------------------------------------------------------------------- *)

Lemma bind_Ok {A B} (m : M A) (k : A -> M B) w a w1 :
  m w = (Ok a, w1) -> bind m k w = k a w1.
Proof. intros H. unfold bind. now rewrite H. Qed.

Lemma bind_Raise {A B} (m : M A) (k : A -> M B) w e w1 :
  m w = (Raise e, w1) -> bind m k w = (Raise e, w1).
Proof. intros H. unfold bind. now rewrite H. Qed.

Lemma bind_inv_Ok {A B} (m : M A) (k : A -> M B) w b w' :
  bind m k w = (Ok b, w') ->
  exists a w1, m w = (Ok a, w1) /\ k a w1 = (Ok b, w').
Proof.
  unfold bind. destruct (m w) as [[a|e] w1]; intros H.
  - now exists a, w1.
  - discriminate.
Qed.

Lemma bind_inv {A B} (m : M A) (k : A -> M B) w r w' :
  bind m k w = (r, w') ->
  (exists a w1, m w = (Ok a, w1) /\ k a w1 = (r, w'))
  \/ (exists e, m w = (Raise e, w') /\ r = Raise e).
Proof.
  unfold bind. destruct (m w) as [[a|e] w1]; intros H.
  - left. now exists a, w1.
  - right. exists e. now inversion H.
Qed.

(* --------------------------------------------------------------------- *)
(* The API key check of login                                            *)
(* --------------------------------------------------------------------- *)

(** C9: check_valid_apikey answers True whatever the url, the credentials
    and the insecure flag are, so the check at the head of login always
    falls through: with credentials supplied it neither exits with the
    message that the server rejected the API key nor with any other
    failure, and it leaves the world as it found it. *)
Theorem check_valid_apikey_always_valid :
  (forall _1 _2 _3, check_valid_apikey _1 _2 _3 = Ok true)
  /\ (forall url credentials insecure w,
        login_check url (Some credentials) insecure w = (Ok tt, w))
  /\ (forall url credentials insecure w,
        fst (login_check url credentials insecure w)
        <> Raise (SystemExit
                    (ExitMsg "The MAAS server rejected your API key."))).
Proof.
  split; [reflexivity|]. split; [reflexivity|].
  intros u [c|] i w; cbn; discriminate.
Qed.

(* --------------------------------------------------------------------- *)
(* Names                                                                 *)
(* --------------------------------------------------------------------- *)

Lemma lower_replace_chars (s : string) :
  list_ascii_of_string (Str.lower (Str.replace "_" "-" s))
  = List.map Str.lower_char
      (List.map NamingRule.hyphenate (list_ascii_of_string s)).
Proof.
  induction s as [|c s IH]; [reflexivity|].
  cbn [Str.replace Str.lower list_ascii_of_string List.map].
  now rewrite IH.
Qed.

Lemma strip_prefix_chars (t : string) :
  (if Str.startswith "cmd-" t then Str.slice_from 4 t else t)
  = string_of_list_ascii (NamingRule.strip_cmd (list_ascii_of_string t)).
Proof.
  assert (same : forall u, string_of_list_ascii (list_ascii_of_string u) = u)
    by apply string_of_list_ascii_of_string.
  assert (empty : forall u, String.prefix "" u = true) by (now intros [|]).
  destruct t as [|c1 t]; [reflexivity|].
  destruct t as [|c2 t];
    [destruct c1 as [[|] [|] [|] [|] [|] [|] [|] [|]]; reflexivity|].
  destruct t as [|c3 t];
    [destruct c1 as [[|] [|] [|] [|] [|] [|] [|] [|]]; try reflexivity;
     destruct c2 as [[|] [|] [|] [|] [|] [|] [|] [|]]; reflexivity|].
  destruct t as [|c4 t];
    [destruct c1 as [[|] [|] [|] [|] [|] [|] [|] [|]]; try reflexivity;
     destruct c2 as [[|] [|] [|] [|] [|] [|] [|] [|]]; try reflexivity;
     destruct c3 as [[|] [|] [|] [|] [|] [|] [|] [|]]; reflexivity|].
  unfold Str.startswith.
  destruct c1 as [[|] [|] [|] [|] [|] [|] [|] [|]];
    try (cbn; now rewrite same);
  destruct c2 as [[|] [|] [|] [|] [|] [|] [|] [|]];
    try (cbn; now rewrite same);
  destruct c3 as [[|] [|] [|] [|] [|] [|] [|] [|]];
    try (cbn; now rewrite same);
  destruct c4 as [[|] [|] [|] [|] [|] [|] [|] [|]];
    cbn; rewrite ?same, ?empty; reflexivity.
Qed.

Lemma Command_name_rule (identifier : string) :
  Command_name identifier = NamingRule.default_name identifier.
Proof.
  unfold Command_name, NamingRule.default_name.
  rewrite strip_prefix_chars. now rewrite lower_replace_chars.
Qed.

(* --------------------------------------------------------------------- *)
(* Heap primitives                                                       *)
(* --------------------------------------------------------------------- *)

Lemma get_parser_at r w p :
  heap w !! r = Some (OParser p) -> get_parser r w = (Ok p, w).
Proof. intros H. unfold get_parser, bind, get_heap. now rewrite H. Qed.

Lemma get_action_at r w s :
  heap w !! r = Some (OSubParsers s) -> get_action r w = (Ok s, w).
Proof. intros H. unfold get_action, bind, get_heap. now rewrite H. Qed.

Lemma set_parser_at r p w :
  set_parser r p w = (Ok tt, set_heap (<[r := OParser p]> (heap w)) w).
Proof. reflexivity. Qed.

Lemma set_action_at r s w :
  set_action r s w = (Ok tt, set_heap (<[r := OSubParsers s]> (heap w)) w).
Proof. reflexivity. Qed.

Lemma alloc_at o w :
  alloc o w = (Ok (length (heap w)), set_heap (heap w ++ [o]) w).
Proof. reflexivity. Qed.

Lemma get_parser_inv r w res w' :
  get_parser r w = (res, w') ->
  w' = w /\ (forall p, res = Ok p -> heap w !! r = Some (OParser p)).
Proof.
  unfold get_parser, bind, get_heap, no_such_object, raise, ret.
  destruct (heap w !! r) as [[p|s]|]; intros H; inversion H; subst;
    split; try reflexivity; intros q Hq; now inversion Hq.
Qed.

Lemma facilities_app h o :
  facilities (h ++ [o]) = facilities h + (if is_facility o then 1 else 0).
Proof.
  unfold facilities. rewrite List.filter_app, List.length_app. cbn.
  now destruct (is_facility o).
Qed.

Lemma facilities_insert h i o o' :
  h !! i = Some o -> is_facility o' = is_facility o ->
  facilities (<[i := o']> h) = facilities h.
Proof.
  unfold facilities. revert i.
  induction h as [|x h IH]; intros [|i] Hi Hk; try discriminate; cbn in *.
  - inversion Hi; subst. rewrite Hk. now destruct (is_facility o).
  - specialize (IH i Hi Hk).
    destruct (is_facility x); [cbn [length]; f_equal|]; exact IH.
Qed.

(* --------------------------------------------------------------------- *)
(* Computations that leave the heap alone                                *)
(* --------------------------------------------------------------------- *)

Section Preserves.
Variable R : world -> world -> Prop.
Hypothesis R_refl : forall w, R w w.
Hypothesis R_trans : forall w1 w2 w3, R w1 w2 -> R w2 w3 -> R w1 w3.

Lemma preserves_ret {A} (a : A) : preserves R (ret a).
Proof. intros w r w' H. inversion H. apply R_refl. Qed.

Lemma preserves_raise {A} e : preserves R (@raise A e).
Proof. intros w r w' H. inversion H. apply R_refl. Qed.

Lemma preserves_lift {A} (x : result A) : preserves R (lift x).
Proof. intros w r w' H. inversion H. apply R_refl. Qed.

Lemma preserves_bind {A B} (m : M A) (k : A -> M B) :
  preserves R m -> (forall a, preserves R (k a)) -> preserves R (bind m k).
Proof.
  intros Hm Hk w r w' H.
  destruct (bind_inv _ _ _ _ _ H) as [(a & w1 & H1 & H2)|(e & H1 & _)].
  - eapply R_trans; [eapply Hm, H1 | eapply Hk, H2].
  - eapply Hm, H1.
Qed.

Lemma preserves_try {A} (m : M A) handles handler :
  preserves R m -> (forall e, preserves R (handler e)) ->
  preserves R (try_except m handles handler).
Proof.
  intros Hm Hh w r w' H. unfold try_except in H.
  destruct (m w) as [[a|e] w1] eqn:E.
  - inversion H; subst. eapply Hm, E.
  - destruct (handles e).
    + eapply R_trans; [eapply Hm, E | eapply Hh, H].
    + inversion H; subst. eapply Hm, E.
Qed.
End Preserves.

Lemma same_heap_refl w : same_heap w w.
Proof. reflexivity. Qed.

Lemma same_heap_trans w1 w2 w3 :
  same_heap w1 w2 -> same_heap w2 w3 -> same_heap w1 w3.
Proof. unfold same_heap. congruence. Qed.

Create HintDb heap.

Lemma heap_ret {A} (a : A) : preserves same_heap (ret a).
Proof. apply preserves_ret, same_heap_refl. Qed.

Lemma heap_raise {A} e : preserves same_heap (@raise A e).
Proof. apply preserves_raise, same_heap_refl. Qed.

Lemma heap_lift {A} (x : result A) : preserves same_heap (lift x).
Proof. apply preserves_lift, same_heap_refl. Qed.

Lemma heap_bind {A B} (m : M A) (k : A -> M B) :
  preserves same_heap m -> (forall a, preserves same_heap (k a)) ->
  preserves same_heap (bind m k).
Proof. apply preserves_bind, same_heap_trans. Qed.

Lemma heap_try {A} (m : M A) handles handler :
  preserves same_heap m -> (forall e, preserves same_heap (handler e)) ->
  preserves same_heap (try_except m handles handler).
Proof. apply preserves_try, same_heap_trans. Qed.

Lemma heap_get_heap : preserves same_heap get_heap.
Proof. intros w r w' H. now inversion H. Qed.

Lemma heap_get_store : preserves same_heap get_store.
Proof. intros w r w' H. now inversion H. Qed.

Lemma heap_put_store s : preserves same_heap (put_store s).
Proof. intros w r w' H. now inversion H. Qed.

Lemma heap_print o : preserves same_heap (print o).
Proof. intros w r w' H. now inversion H. Qed.

Lemma heap_print_err o : preserves same_heap (print_err o).
Proof. intros w r w' H. now inversion H. Qed.

#[export] Hint Resolve heap_ret heap_raise heap_lift heap_get_heap
  heap_get_store heap_put_store heap_print heap_print_err : heap.

(* One step of a proof that a computation keeps the heap: split a bind,
   or take the scrutinee of a match apart. *)
Ltac heap_step :=
  match goal with
  | |- preserves same_heap (bind _ _) => apply heap_bind; [|intros ?]
  | |- preserves same_heap (try_except _ _ _) => apply heap_try; [|intros ?]
  | |- preserves same_heap (match ?x with _ => _ end) => destruct x
  | |- preserves same_heap (let '(_, _) := ?x in _) => destruct x
  | |- preserves same_heap _ => solve [auto with heap]
  end.

Lemma heap_no_such_object {A} : preserves same_heap (@no_such_object A).
Proof. apply heap_raise. Qed.
#[export] Hint Resolve heap_no_such_object : heap.

Lemma heap_get_parser r : preserves same_heap (get_parser r).
Proof. unfold get_parser. repeat heap_step. Qed.

Lemma heap_get_action r : preserves same_heap (get_action r).
Proof. unfold get_action. repeat heap_step. Qed.
#[export] Hint Resolve heap_get_parser heap_get_action : heap.

Lemma heap_print_help r : preserves same_heap (argparse.print_help r).
Proof. unfold argparse.print_help. repeat heap_step. Qed.

Lemma heap_print_help_err r : preserves same_heap (argparse.print_help_err r).
Proof. unfold argparse.print_help_err. repeat heap_step. Qed.
#[export] Hint Resolve heap_print_help heap_print_help_err : heap.

Lemma heap_error {A} r message : preserves same_heap (@error A r message).
Proof. unfold error. repeat heap_step. Qed.
#[export] Hint Resolve heap_error : heap.

Lemma heap_convert env self a arg :
  preserves same_heap (Parse.convert env self a arg).
Proof. unfold Parse.convert. repeat heap_step. Qed.

Lemma heap_finish self ps ns extras :
  preserves same_heap (Parse.finish self ps ns extras).
Proof. unfold Parse.finish. repeat heap_step. Qed.
#[export] Hint Resolve heap_convert heap_finish : heap.

Lemma heap_parse_loop env h args :
  forall self p ps queue fresh enabled ns extras,
    preserves same_heap
      (Parse.parse_loop env h self p ps queue fresh enabled ns extras args).
Proof.
  induction args as [|a rest IH]; intros; cbn [Parse.parse_loop].
  - auto with heap.
  - repeat heap_step; try apply IH.
Qed.
#[export] Hint Resolve heap_parse_loop : heap.

Lemma heap_parse_args env self args :
  preserves same_heap (Parse.parse_args env self args).
Proof. unfold Parse.parse_args. repeat heap_step. Qed.
#[export] Hint Resolve heap_parse_args : heap.

(* --------------------------------------------------------------------- *)
(* The subparsers property                                               *)
(* --------------------------------------------------------------------- *)

Lemma subparsers_first self w p :
  heap w !! self = Some (OParser p) ->
  subparsers_attr p = None ->
  existsb argparse.is_subparsers (_actions p) = false ->
  subparsers self w
  = (Ok (length (heap w)),
     set_heap (<[self := OParser (opened p (length (heap w)))]> (heap w)
               ++ [OSubParsers (fresh_facility (heap w) p)]) w).
Proof.
  intros Hp Hattr Hnone.
  pose proof (lookup_lt_Some _ _ _ Hp) as Hlt.
  unfold subparsers.
  rewrite (bind_Ok _ _ _ _ _ (get_parser_at _ _ _ Hp)), Hattr.
  unfold super_add_subparsers.
  erewrite bind_Ok; cycle 1.
  { rewrite (bind_Ok _ _ _ _ _ (get_parser_at _ _ _ Hp)), Hnone.
    cbn. reflexivity. }
  erewrite bind_Ok; cycle 1.
  { apply get_parser_at. cbn. apply list_lookup_insert_eq.
    rewrite length_app. cbn. lia. }
  rewrite Hattr.
  erewrite bind_Ok by apply set_parser_at.
  erewrite bind_Ok; cycle 1.
  { apply get_action_at. cbn.
    rewrite !list_lookup_insert_ne by lia.
    apply list_lookup_middle. reflexivity. }
  erewrite bind_Ok by apply set_action_at.
  unfold ret, set_heap. cbn. f_equal. f_equal.
  rewrite list_insert_insert_eq.
  rewrite insert_app_l by lia.
  rewrite insert_app_r_alt by (rewrite length_insert; lia).
  rewrite length_insert, Nat.sub_diag. reflexivity.
Qed.

Lemma subparsers_again self w p a :
  heap w !! self = Some (OParser p) ->
  subparsers_attr p = Some a ->
  subparsers self w = (Ok a, w).
Proof.
  intros Hp Hattr. unfold subparsers.
  now rewrite (bind_Ok _ _ _ _ _ (get_parser_at _ _ _ Hp)), Hattr.
Qed.

(* No call other than reading the property changes which facility a node
   holds, or allocates one anywhere. *)
Lemma perform_keeps env self c w p :
  heap w !! self = Some (OParser p) ->
  let w' := snd (perform env self c w) in
  facilities (heap w') = facilities (heap w)
  /\ exists p', heap w' !! self = Some (OParser p')
                /\ subparsers_attr p' = subparsers_attr p.
Proof.
  intros Hp.
  pose proof (lookup_lt_Some _ _ _ Hp) as Hlt.
  assert (kept : forall (m : M unit), preserves same_heap m ->
            facilities (heap (snd (m w))) = facilities (heap w)
            /\ exists p', heap (snd (m w)) !! self = Some (OParser p')
                          /\ subparsers_attr p' = subparsers_attr p).
  { intros m Hm. destruct (m w) as [r w1] eqn:E.
    pose proof (Hm _ _ _ E) as Hh. unfold same_heap in Hh.
    cbn [snd]. rewrite Hh. eauto. }
  destruct c as [a|kwargs| | |message|args]; cbn [perform].
  - unfold argparse.add_argument.
    rewrite (bind_Ok _ _ _ _ _ (get_parser_at _ _ _ Hp)).
    destruct (argparse.conflicts a (_actions p)); cbn.
    + eauto.
    + split.
      * eapply facilities_insert; [exact Hp | reflexivity].
      * eexists. split; [apply list_lookup_insert_eq, Hlt | reflexivity].
  - unfold argparse.set_defaults.
    rewrite (bind_Ok _ _ _ _ _ (get_parser_at _ _ _ Hp)). cbn. split.
    + eapply facilities_insert; [exact Hp | reflexivity].
    + eexists. split; [apply list_lookup_insert_eq, Hlt | reflexivity].
  - cbn. eauto.
  - apply kept. auto with heap.
  - apply kept. auto with heap.
  - apply kept. apply heap_bind; auto with heap.
Qed.

Lemma perform_all_keeps env self cs :
  forall w p,
    heap w !! self = Some (OParser p) ->
    facilities (heap (perform_all env self cs w)) = facilities (heap w)
    /\ facility_of (perform_all env self cs w) self = subparsers_attr p
    /\ exists p', heap (perform_all env self cs w) !! self = Some (OParser p').
Proof.
  induction cs as [|c cs IH]; intros w p Hp; cbn [perform_all].
  - split; [reflexivity|]. unfold facility_of. rewrite Hp. eauto.
  - destruct (perform_keeps env self c w p Hp) as (Hn & p' & Hp' & Ha').
    destruct (IH _ _ Hp') as (Hn' & Hf & p'' & Hp'').
    repeat split; [congruence | congruence | eauto].
Qed.

(** C8: a parser node whose subparsers property has not been read holds no
    child-registration facility, and no sequence of other calls on it
    (add_argument, set_defaults, add_subparsers, print_help, error,
    parse_args) gives it one or allocates one.  The first read of the
    property allocates a fresh facility and stores it on the node; every
    later read, also after further calls of the other kinds, returns that
    same facility and changes nothing.  add_subparsers itself always
    fails with NotImplementedError. *)
Theorem subparsers_created_on_first_use
  (env : environment) (self : ref) (w : world) (p : ArgumentParser)
  (Hp : heap w !! self = Some (OParser p))
  (Hunread : subparsers_attr p = None)
  (Hnone : existsb argparse.is_subparsers (_actions p) = false) :
  let a := length (heap w) in
  (forall cs,
      facilities (heap (perform_all env self cs w)) = facilities (heap w)
      /\ facility_of (perform_all env self cs w) self = None)
  /\ (exists w',
         subparsers self w = (Ok a, w')
         /\ heap w !! a = None
         /\ heap w' !! a = Some (OSubParsers (fresh_facility (heap w) p))
         /\ facility_of w' self = Some a
         /\ facilities (heap w') = S (facilities (heap w))
         /\ forall cs,
             let w'' := perform_all env self cs w' in
             subparsers self w'' = (Ok a, w'')
             /\ facilities (heap w'') = facilities (heap w'))
  /\ (forall w0, add_subparsers self w0
                 = (Raise (Exception "NotImplementedError"
                             "add_subparsers has been disabled"), w0)).
Proof.
  intros a. subst a.
  pose proof (lookup_lt_Some _ _ _ Hp) as Hlt.
  split; [|split; [|reflexivity]].
  - intros cs. destruct (perform_all_keeps env self cs w p Hp) as (? & ? & _).
    split; congruence.
  - eexists. split; [apply (subparsers_first self w p Hp Hunread Hnone)|].
    assert (Hself : heap (set_heap
                (<[self := OParser (opened p (length (heap w)))]> (heap w)
                 ++ [OSubParsers (fresh_facility (heap w) p)]) w) !! self
              = Some (OParser (opened p (length (heap w))))).
    { cbn. rewrite lookup_app_l by (rewrite length_insert; lia).
      now apply list_lookup_insert_eq. }
    split; [apply lookup_ge_None; lia|].
    split.
    { cbn. apply list_lookup_middle. now rewrite length_insert. }
    split; [unfold facility_of; now rewrite Hself|].
    split.
    { cbn [heap set_heap]. rewrite facilities_app. cbn [is_facility].
      erewrite facilities_insert by (exact Hp || reflexivity). lia. }
    intros cs w''.
    destruct (perform_all_keeps env self cs _ _ Hself) as (Hn & Hf & p' & Hp').
    split; [|exact Hn].
    unfold facility_of in Hf. fold w'' in Hf, Hp'. rewrite Hp' in Hf.
    now apply (subparsers_again self w'' p').
Qed.

(* --------------------------------------------------------------------- *)
(* sorted                                                                *)
(* --------------------------------------------------------------------- *)

Section SortedFacts.
Context {A : Type} (key : A -> string).

Let le (x y : A) : Prop := String.leb (key x) (key y) = true.

Lemma insert_sorted_perm x l : Permutation (insert_sorted key x l) (x :: l).
Proof.
  induction l as [|y l IH]; cbn; [reflexivity|].
  destruct (String.leb (key x) (key y)); [reflexivity|].
  rewrite IH. apply perm_swap.
Qed.

Lemma sorted_perm l : Permutation (sorted key l) l.
Proof.
  induction l as [|x l IH]; cbn; [reflexivity|].
  rewrite insert_sorted_perm. now constructor.
Qed.

Lemma insert_sorted_hd x y l :
  le y x -> HdRel le y l -> HdRel le y (insert_sorted key x l).
Proof.
  intros Hyx Hhd. destruct l as [|z l]; cbn; [now constructor|].
  destruct (String.leb (key x) (key z)); constructor; [exact Hyx|].
  now inversion Hhd.
Qed.

Lemma insert_sorted_Sorted x l :
  Sorted le l -> Sorted le (insert_sorted key x l).
Proof.
  induction 1 as [|y l Hs IH Hhd]; cbn; [repeat constructor|].
  destruct (String.leb (key x) (key y)) eqn:E.
  - constructor; [now constructor|]. now constructor.
  - constructor; [exact IH|]. apply insert_sorted_hd; [|exact Hhd].
    unfold le. destruct (String.leb_total (key y) (key x)); congruence.
Qed.

Lemma sorted_Sorted l : Sorted le (sorted key l).
Proof.
  induction l as [|x l IH]; cbn; [constructor|].
  now apply insert_sorted_Sorted.
Qed.

Lemma sorted_keys_ascending l : ascending (List.map key (sorted key l)).
Proof.
  unfold ascending. induction (sorted_Sorted l) as [|x l' Hs IH Hhd]; cbn.
  - constructor.
  - constructor; [exact IH|]. destruct Hhd; cbn; now constructor.
Qed.

Lemma sorted_keys_perm l :
  Permutation (List.map key (sorted key l)) (List.map key l).
Proof. apply Permutation_map, sorted_perm. Qed.
End SortedFacts.

(* --------------------------------------------------------------------- *)
(* The listings                                                          *)
(* --------------------------------------------------------------------- *)

Lemma first_column_cells (rows : list row) :
  first_column (prep_table (List.map cells rows))
  = List.map Plain (List.map itemgetter0 rows).
Proof. induction rows as [|r rows IH]; cbn; [reflexivity|]. now f_equal. Qed.

Lemma prints_sorted_rows env (header : list cell) (body : list row) w names :
  Permutation (List.map itemgetter0 body) names ->
  prints_sorted env
    (print_table env ([header] ++ List.map cells (sorted itemgetter0 body)))
    w names.
Proof.
  intros Hperm.
  exists (List.map prep header),
         (prep_table (List.map cells (sorted itemgetter0 body))),
         (List.map itemgetter0 (sorted itemgetter0 body)).
  split; [reflexivity|]. split; [apply first_column_cells|].
  split; [apply sorted_keys_ascending|].
  now rewrite sorted_keys_perm.
Qed.

Lemma profile_rows_stored profile_names :
  forall rows w,
    Forall (fun n => is_Some (store w !! n)) profile_names ->
    profile_rows profile_names rows w
    = (Ok (rows ++ List.map (profile_row (store w)) profile_names)%list, w).
Proof.
  induction profile_names as [|n rest IH]; intros rows w Hall.
  - cbn. now rewrite app_nil_r.
  - inversion Hall as [|? ? [profile Hn] Hrest]; subst.
    cbn [profile_rows List.map].
    unfold ProfileConfig.getitem, bind at 1, bind at 1, get_store.
    unfold profile_row at 1. rewrite Hn. cbn [ret].
    destruct (credentials profile); rewrite IH by exact Hrest;
      now rewrite <- app_assoc.
Qed.

Lemma first_column_profile_rows config profile_names :
  Forall (fun n => is_Some (config !! n)) profile_names ->
  first_column (prep_table (List.map (profile_row config) profile_names))
  = List.map Plain profile_names.
Proof.
  induction 1 as [|n rest [profile Hn] _ IH]; cbn; [reflexivity|].
  f_equal; [|exact IH].
  unfold profile_row. rewrite Hn. now destruct (credentials profile).
Qed.

(** C10: each listing prints one table whose rows below the header are in
    ascending order of their first column and carry exactly the names
    listed: list-profiles the names of the stored profiles, list-nodes the
    hostnames, list-tags the tag names, list-files the file names and
    list-users the user names that the origin served. *)
Theorem listings_print_sorted_rows
  (env : environment) (origin : Profile) (options : Namespace) (w : world) :
  prints_sorted env (list_profiles_call env options) w
    (elements (dom (store w)))
  /\ (forall nodes, Nodes env origin = Ok nodes ->
        prints_sorted env (list_nodes_execute env origin options) w
          (List.map hostname nodes))
  /\ (forall tags, Tags env origin = Ok tags ->
        prints_sorted env (list_tags_execute env origin options) w
          (List.map tag_name tags))
  /\ (forall files, Files env origin = Ok files ->
        prints_sorted env (list_files_execute env origin options) w
          (List.map filename files))
  /\ (forall users, Users env origin = Ok users ->
        prints_sorted env (list_users_execute env origin options) w
          (List.map username users)).
Proof.
  split; [|repeat split].
  - assert (Hall : Forall (fun n => is_Some (store w !! n))
                     (sorted id (elements (dom (store w))))).
    { apply Forall_forall. intros n Hin.
      apply list_elem_of_In in Hin.
      apply (Permutation_in _ (sorted_perm id _)) in Hin.
      apply list_elem_of_In in Hin.
      apply elem_of_dom, elem_of_elements, Hin. }
    exists [Plain "Profile name"; Plain "URL"],
           (prep_table (List.map (profile_row (store w))
                          (sorted id (elements (dom (store w)))))),
           (sorted id (elements (dom (store w)))).
    split.
    { unfold list_profiles_call, ProfileConfig.names.
      unfold bind at 1, bind at 1, get_store. cbn [ret].
      unfold bind. rewrite (profile_rows_stored _ _ _ Hall).
      reflexivity. }
    split; [now apply first_column_profile_rows|].
    split.
    + pose proof (sorted_keys_ascending id (elements (dom (store w)))) as H.
      now rewrite List.map_id in H.
    + apply sorted_perm.
  - intros nodes H. unfold list_nodes_execute, bind, lift. rewrite H.
    apply prints_sorted_rows. now rewrite List.map_map.
  - intros tags H. unfold list_tags_execute, bind, lift. rewrite H.
    apply prints_sorted_rows. now rewrite List.map_map.
  - intros files H. unfold list_files_execute, bind, lift. rewrite H.
    apply prints_sorted_rows. now rewrite List.map_map.
  - intros users H. unfold list_users_execute, bind, lift. rewrite H.
    apply prints_sorted_rows. now rewrite List.map_map.
Qed.

(* --------------------------------------------------------------------- *)
(* refresh-profiles                                                      *)
(* --------------------------------------------------------------------- *)

Lemma only_descriptions_refl w : only_descriptions_differ w w.
Proof.
  repeat split. intros n. destruct (store w !! n) as [p|]; [|reflexivity].
  exists p. now repeat split.
Qed.

Lemma only_descriptions_trans w1 w2 w3 :
  only_descriptions_differ w1 w2 -> only_descriptions_differ w2 w3 ->
  only_descriptions_differ w1 w3.
Proof.
  intros (Hh & Ho & He & Hs) (Hh' & Ho' & He' & Hs').
  repeat split; try congruence.
  intros n. specialize (Hs n). specialize (Hs' n).
  destruct (store w1 !! n) as [p|].
  - destruct Hs as (p' & Hp' & H1 & H2 & H3). rewrite Hp' in Hs'.
    destruct Hs' as (p'' & Hp'' & H1' & H2' & H3').
    exists p''. repeat split; congruence.
  - now rewrite Hs in Hs'.
Qed.

(* Whatever happens along the way, refresh-profiles changes nothing but
   descriptions: credentials, URLs and names of all profiles stay, and no
   profile appears or disappears. *)
Lemma refresh_each_frame env profile_names :
  preserves only_descriptions_differ (refresh_each env profile_names).
Proof.
  induction profile_names as [|n rest IH]; intros w r w' H;
    cbn [refresh_each] in H.
  - inversion H. apply only_descriptions_refl.
  - unfold ProfileConfig.getitem, bind at 1, bind at 1, get_store in H.
    destruct (store w !! n) as [profile|] eqn:En;
      [|inversion H; apply only_descriptions_refl].
    cbn [ret] in H. unfold bind at 1, Credentials_from in H.
    destruct (credentials profile) as [creds|] eqn:Ec;
      [|inversion H; apply only_descriptions_refl].
    cbn [ret] in H. unfold bind at 1, lift in H.
    destruct (fromURL env (url profile) (Some creds) false) as [d|e];
      [|inversion H; apply only_descriptions_refl].
    unfold bind at 1, ProfileConfig.setitem, bind at 1, get_store, put_store
      in H.
    eapply only_descriptions_trans; [|eapply IH, H].
    repeat split. intros m. cbn [store].
    destruct (decide (n = m)) as [<-|Hne].
    + rewrite lookup_insert_eq, En. eexists. split; [reflexivity|].
      now repeat split.
    + rewrite lookup_insert_ne by exact Hne.
      destruct (store w !! m) as [q|]; [|reflexivity].
      exists q. now repeat split.
Qed.

(* Logging in without credentials is what puts an anonymous profile in
   the store. *)
Lemma login_without_credentials_stores_anonymous_profile :
  store (snd (main legacy ["maas"; "login"; "dev"; "http://x/"] (initial ∅)))
  = {[ "dev" := {| credentials := None; description := "description";
                   name := "dev"; url := "http://x/" |} ]}.
Proof. vm_compute. reflexivity. Qed.

(** C3: against the store that holds the single anonymous profile "dev"
    (credentials None), refresh-profiles establishes no session and
    refreshes nothing.  Unpacking the stored credentials raises TypeError
    before the session is asked for, the store is left as it was, and the
    dispatcher reports the failure with exit status 2. *)
Theorem refresh_profiles_fails_on_anonymous_profile
  (env : environment) (options : Namespace) (cached : string) :
  let dev := {| credentials := None; description := cached;
                name := "dev"; url := "http://x/" |} in
  let w := initial {[ "dev" := dev ]} in
  refresh_profiles_call env options w
  = (Raise (Exception "TypeError"
              "type object argument after * must be an iterable, not NoneType"),
     w)
  /\ exit_status (fst (main env ["maas"; "refresh-profiles"] w)) = 2%Z
  /\ store (snd (main env ["maas"; "refresh-profiles"] w)) = {[ "dev" := dev ]}.
Proof.
  intros dev w. split; [vm_compute; reflexivity|].
  destruct env as [tty strip api creds session nodes tags files users xxxs
                     [|]]; split; vm_compute; reflexivity.
Qed.

(* --------------------------------------------------------------------- *)
(* Dispatch on concrete command lines                                    *)
(* --------------------------------------------------------------------- *)

(** C5: dispatching list-profiles against the store that holds exactly the
    profile "dev" with url "http://x/" and credentials None returns
    normally and prints one table, on stdout and nothing on stderr, with
    the header row Profile name, URL and the single data row dev,
    http://x/, (anonymous). *)
Theorem list_profiles_prints_anonymous_row
  (env : environment) (prog desc profile_name : string) :
  let dev := {| credentials := None; description := desc;
                name := profile_name; url := "http://x/" |} in
  let run := main env [prog; "list-profiles"] (initial {[ "dev" := dev ]}) in
  fst run = Ok tt
  /\ stdout (snd run)
     = [Table (isatty env)
          [[Plain "Profile name"; Plain "URL"];
           [Plain "dev"; Plain "http://x/"; Plain "(anonymous)"]]]
  /\ stderr (snd run) = []
  /\ store (snd run) = {[ "dev" := dev ]}.
Proof.
  intros dev run. subst run.
  destruct env as [tty strip api creds session nodes tags files users xxxs
                     [|]]; repeat split; vm_compute; reflexivity.
Qed.

(** C6: dispatching with no arguments raises SystemExit(2), so the exit
    code is 2, after printing on stderr the help of the program followed
    by an empty line and the line No arguments given.; nothing goes to
    stdout, and the help lists each of the registered command names
    login, logout, list-profiles, refresh-profiles, list-nodes, list-tags,
    list-files and list-users. *)
Theorem no_arguments_prints_usage_and_exits_2
  (env : environment) (prog : string) (profiles : gmap string Profile) :
  let run := main env [prog] (initial profiles) in
  fst run = Raise (SystemExit (ExitCode 2))
  /\ exit_status (fst run) = 2%Z
  /\ stdout (snd run) = []
  /\ registered_names (snd run) 0
     = ["login"; "logout"; "list-profiles"; "refresh-profiles";
        "list-nodes"; "list-tags"; "list-files"; "list-users"]
  /\ exists doc,
      stderr (snd run) = [Help doc; Line ""; Line "No arguments given."]
      /\ forallb (mentions doc) (registered_names (snd run) 0) = true.
Proof.
  intros run. subst run.
  destruct env as [tty strip api creds session nodes tags files users xxxs
                     [|]];
    (repeat split; try (vm_compute; reflexivity));
    (eexists; split; vm_compute; reflexivity).
Qed.

(* --------------------------------------------------------------------- *)
(* Registration                                                          *)
(* --------------------------------------------------------------------- *)

Lemma add_argument_at r act w p :
  heap w !! r = Some (OParser p) ->
  argparse.conflicts act (_actions p) = false ->
  argparse.add_argument r act w
  = (Ok tt,
     set_heap (<[r := OParser
                   {| prog := prog p;
                      parser_description := parser_description p;
                      epilog := epilog p; _actions := _actions p ++ [act];
                      _defaults := _defaults p;
                      subparsers_attr := subparsers_attr p |}]> (heap w)) w).
Proof.
  intros Hp Hc. unfold argparse.add_argument.
  now rewrite (bind_Ok _ _ _ _ _ (get_parser_at _ _ _ Hp)), Hc.
Qed.

Lemma set_defaults_at r kwargs w p :
  heap w !! r = Some (OParser p) ->
  argparse.set_defaults r kwargs w
  = (Ok tt,
     set_heap (<[r := OParser
                   {| prog := prog p;
                      parser_description := parser_description p;
                      epilog := epilog p;
                      _actions := List.map (argparse.update_default kwargs)
                                    (_actions p);
                      _defaults := fold_left
                                     (fun d kv => dict_set d (fst kv) (snd kv))
                                     kwargs (_defaults p);
                      subparsers_attr := subparsers_attr p |}]> (heap w)) w).
Proof.
  intros Hp. unfold argparse.set_defaults.
  now rewrite (bind_Ok _ _ _ _ _ (get_parser_at _ _ _ Hp)).
Qed.

Lemma set_heap_set_heap h h' w : set_heap h (set_heap h' w) = set_heap h w.
Proof. reflexivity. Qed.

Ltac declare_lookup Hlt :=
  first [eassumption
        |cbn [heap set_heap]; apply list_lookup_insert_eq;
         rewrite ?length_insert; exact Hlt].

Ltac declare_step Hlt :=
  first
    [ erewrite bind_Ok;
      [|apply add_argument_at; [declare_lookup Hlt|reflexivity]]
    | erewrite add_argument_at; [|declare_lookup Hlt|reflexivity]
    | erewrite set_defaults_at; [|declare_lookup Hlt] ];
  cbn [prog parser_description epilog _actions _defaults subparsers_attr
       blank_parser app].

Lemma Command_init_blank i r w pg d e :
  heap w !! r = Some (OParser (blank_parser pg d e)) ->
  exists p',
    Command_init i r w = (Ok tt, set_heap (<[r := OParser p']> (heap w)) w).
Proof.
  intros Hp. pose proof (lookup_lt_Some _ _ _ Hp) as Hlt.
  assert (Hsame : (Ok tt, w)
                  = (Ok tt, set_heap (<[r := OParser (blank_parser pg d e)]>
                                        (heap w)) w)).
  { rewrite (list_insert_id _ _ _ Hp). now destruct w. }
  destruct i; unfold Command_init;
    try (eexists; exact Hsame);
    repeat declare_step Hlt;
    unfold set_heap, ret; cbn [heap store stdout stderr];
    rewrite ?list_insert_insert_eq;
    eexists; reflexivity.
Qed.

Lemma dict_get_set_eq {V} (d : list (string * V)) k v :
  dict_get (dict_set d k v) k = Some v.
Proof.
  induction d as [|[k' v'] d IH]; cbn.
  - now rewrite String.eqb_refl.
  - destruct (String.eqb k k') eqn:E; cbn; rewrite ?String.eqb_refl, ?E; auto.
Qed.

Lemma add_parser_conflict env a name hl d e w s r0 :
  heap w !! a = Some (OSubParsers s) ->
  conflicting_subparser_check env = true ->
  dict_get (_name_parser_map s) name = Some r0 ->
  add_parser env a name hl d e w
  = (Raise (Exception "ArgumentError"
              ("argument " ++ argparse.choices_metavar s
               ++ ": conflicting subparser: " ++ name)), w).
Proof.
  intros Hs Hc Hn. unfold add_parser.
  rewrite (bind_Ok _ _ _ _ _ (get_action_at _ _ _ Hs)), Hc, Hn.
  reflexivity.
Qed.

Lemma add_parser_new env a name hl d e w s :
  heap w !! a = Some (OSubParsers s) ->
  conflicting_subparser_check env
  && match dict_get (_name_parser_map s) name with
     | Some _ => true
     | None => false
     end = false ->
  add_parser env a name hl d e w
  = (Ok (length (heap w)),
     set_heap (<[a := OSubParsers (filed s name hl (length (heap w)))]> (heap w)
               ++ [OParser (blank_parser (_prog_prefix s ++ " " ++ name) d e)])
       w).
Proof.
  intros Hs Hc. pose proof (lookup_lt_Some _ _ _ Hs) as Hlt.
  unfold add_parser.
  rewrite (bind_Ok _ _ _ _ _ (get_action_at _ _ _ Hs)).
  replace (bool_decide (is_Some (dict_get (_name_parser_map s) name)))
    with (match dict_get (_name_parser_map s) name with
          | Some _ => true
          | None => false
          end).
  2:{ destruct (dict_get (_name_parser_map s) name).
      - symmetry. apply bool_decide_eq_true. eauto.
      - symmetry. apply bool_decide_eq_false. intros [? ?]. discriminate. }
  rewrite Hc.
  erewrite bind_Ok by apply set_action_at.
  erewrite bind_Ok by apply alloc_at.
  erewrite bind_Ok; cycle 1.
  { apply get_action_at. cbn [heap set_heap].
    rewrite lookup_app_l by (rewrite length_insert; exact Hlt).
    apply list_lookup_insert_eq, Hlt. }
  erewrite bind_Ok by apply set_action_at.
  unfold ret, set_heap, filed. cbn [heap store stdout stderr title sub_metavar
    _prog_prefix _choices_actions _name_parser_map].
  rewrite length_insert.
  rewrite insert_app_l by (rewrite length_insert; exact Hlt).
  rewrite list_insert_insert_eq. reflexivity.
Qed.

(* Reading the property on a ready node yields its facility, new or old,
   and does not change which names are taken. *)
Lemma subparsers_ready w parser n :
  node_ready w parser ->
  exists a s p1 w1,
    subparsers parser w = (Ok a, w1)
    /\ heap w1 !! parser = Some (OParser p1)
    /\ subparsers_attr p1 = Some a
    /\ heap w1 !! a = Some (OSubParsers s)
    /\ (match dict_get (_name_parser_map s) n with
        | Some _ => true
        | None => false
        end = taken w parser n)
    /\ length (heap w) <= length (heap w1)
    /\ (taken w parser n = true -> w1 = w).
Proof.
  intros (p & Hp & Hattr).
  pose proof (lookup_lt_Some _ _ _ Hp) as Hlt.
  destruct (subparsers_attr p) as [a|] eqn:Ea.
  - destruct Hattr as (s & Hs).
    exists a, s, p, w. rewrite (subparsers_again _ _ _ _ Hp Ea).
    repeat split; auto.
    unfold taken, facility_of. now rewrite Hp, Ea, Hs.
  - exists (length (heap w)), (fresh_facility (heap w) p),
           (opened p (length (heap w))).
    eexists. rewrite (subparsers_first _ _ _ Hp Ea Hattr).
    split; [reflexivity|]. cbn [heap set_heap].
    split; [rewrite lookup_app_l by (rewrite length_insert; exact Hlt);
            apply list_lookup_insert_eq, Hlt|].
    split; [reflexivity|].
    split; [apply list_lookup_middle; now rewrite length_insert|].
    assert (Hfree : taken w parser n = false)
      by (unfold taken, facility_of; now rewrite Hp, Ea).
    split; [now rewrite Hfree|].
    split; [rewrite length_app, length_insert; lia|].
    rewrite Hfree. discriminate.
Qed.

(* register on a ready node: unless the interpreter's argparse checks for
   conflicts and the name is taken, the command is filed under its name
   at a newly allocated parser, with the new instance as its handler. *)
Lemma register_files env c parser name w :
  node_ready w parser ->
  conflicting_subparser_check env
  && taken w parser (match name with
                     | None => Command_name (cls_name c)
                     | Some n => n
                     end) = false ->
  exists w' r,
    register env c parser name w = (Ok tt, w')
    /\ heap w !! r = None
    /\ handler_of w' parser (match name with
                             | None => Command_name (cls_name c)
                             | Some n => n
                             end)
       = Some {| cls := c; parser := r |}
    /\ node_ready w' parser.
Proof.
  intros Hready Hfree.
  set (n := match name with None => Command_name (cls_name c) | Some n => n end)
    in *.
  destruct (subparsers_ready w parser n Hready)
    as (a & s & p1 & w1 & Hsub & Hp1 & Hattr1 & Hs1 & Htaken & Hlen & _).
  pose proof (lookup_lt_Some _ _ _ Hp1) as Hlt.
  pose proof (lookup_lt_Some _ _ _ Hs1) as Hlta.
  assert (Hne : a <> parser) by (intros ->; congruence).
  rewrite <- Htaken in Hfree.
  unfold register. rewrite (bind_Ok _ _ _ _ _ Hsub). fold n.
  rewrite (bind_Ok _ _ _ _ _
             (add_parser_new env a n _ _ _ w1 s Hs1 Hfree)).
  set (r := length (heap w1)).
  set (w2 := set_heap _ w1).
  assert (Hr2 : heap w2 !! r
                = Some (OParser (blank_parser (_prog_prefix s ++ " " ++ n)
                                   (help_title c) (help_body c)))).
  { subst w2 r. cbn [heap set_heap]. apply list_lookup_middle.
    now rewrite length_insert. }
  destruct (Command_init_blank (impl c) r w2 _ _ _ Hr2) as (p' & Hinit).
  assert (Hnew : Command_new c r w2
                 = (Ok {| cls := c; parser := r |},
                    set_heap (<[r := OParser p']> (heap w2)) w2))
    by (unfold Command_new; now rewrite (bind_Ok _ _ _ _ _ Hinit)).
  rewrite (bind_Ok _ _ _ _ _ Hnew).
  pose proof (lookup_lt_Some _ _ _ Hr2) as Hltr.
  erewrite set_defaults_at
    by (cbn [heap set_heap]; apply list_lookup_insert_eq, Hltr).
  eexists. exists r. split; [reflexivity|].
  split; [apply lookup_ge_None; subst r; lia|].
  assert (Hparser : forall x,
             <[r := OParser x]> (<[r := OParser p']> (heap w2)) !! parser
             = Some (OParser p1)).
  { intros x. rewrite !list_lookup_insert_ne by (subst r; lia).
    subst w2. cbn [heap set_heap].
    rewrite lookup_app_l by (rewrite length_insert; exact Hlt).
    rewrite list_lookup_insert_ne by exact Hne. exact Hp1. }
  assert (Haction : forall x,
             <[r := OParser x]> (<[r := OParser p']> (heap w2)) !! a
             = Some (OSubParsers (filed s n (help_title c) r))).
  { intros x. rewrite !list_lookup_insert_ne by (subst r; lia).
    subst w2. cbn [heap set_heap].
    rewrite lookup_app_l by (rewrite length_insert; exact Hlta).
    apply list_lookup_insert_eq, Hlta. }
  split.
  - unfold handler_of, facility_of. cbn [heap set_heap].
    rewrite Hparser, Hattr1, Haction.
    cbn [filed _name_parser_map]. rewrite dict_get_set_eq.
    rewrite list_lookup_insert_eq by (rewrite length_insert; exact Hltr).
    cbn [_defaults fold_left fst snd]. now rewrite dict_get_set_eq.
  - exists p1. cbn [heap set_heap]. split; [apply Hparser|].
    rewrite Hattr1. eexists. apply Haction.
Qed.


(** C7, as the code has it: register makes no check of its own for a name
    that is already taken on the node.  Where the interpreter's argparse
    checks for conflicting sub-parsers, the registration raises
    ArgumentError while the tree is assembled and leaves the tree as it
    was; where it does not, the registration succeeds and the name from
    then on resolves to the new instance, bound to a newly allocated
    parser, in place of the earlier one. *)
Theorem duplicate_name_is_left_to_argparse
  (env : environment) (c : CommandClass) (parser : ref)
  (name : option string) (w : world)
  (Hready : node_ready w parser)
  (Htaken : taken w parser (registered_as c name) = true) :
  if conflicting_subparser_check env then
    exists message,
      register env c parser name w
      = (Raise (Exception "ArgumentError" message), w)
  else
    exists w' r,
      register env c parser name w = (Ok tt, w')
      /\ heap w !! r = None
      /\ handler_of w' parser (registered_as c name)
         = Some {| cls := c; parser := r |}.
Proof.
  assert (Hname : registered_as c name
                  = match name with
                    | None => Command_name (cls_name c)
                    | Some n => n
                    end)
    by (destruct name; [reflexivity|symmetry; apply Command_name_rule]).
  rewrite Hname in *.
  destruct (conflicting_subparser_check env) eqn:Hcheck.
  - set (n := match name with
                | None => Command_name (cls_name c)
                | Some n => n
                end) in *.
    destruct (subparsers_ready w parser n Hready)
      as (a & s & p1 & w1 & Hsub & _ & _ & Hs1 & Hsame & _ & Hw).
    rewrite Htaken in Hsame. specialize (Hw Htaken). subst w1.
    destruct (dict_get (_name_parser_map s) n) as [r0|] eqn:Hr0;
      [|discriminate].
    eexists. unfold register. rewrite (bind_Ok _ _ _ _ _ Hsub).
    erewrite bind_Raise; [reflexivity|].
    eapply add_parser_conflict; eassumption.
  - destruct (register_files env c parser name w Hready)
      as (w' & r & Hreg & Hnew & Hhandler & _).
    { now rewrite Hcheck. }
    eauto.
Qed.

(* cmd_login registered a second time on the same parser, under an
   argparse that does not check: the registration does not fail. *)
Lemma duplicate_registration_accepted :
  ~ duplicate_rejected legacy cmd_login 0 None (login_registered legacy).
Proof.
  intros H. destruct H as (e & w' & H); [vm_compute; reflexivity|].
  vm_compute in H. discriminate.
Qed.

(* --------------------------------------------------------------------- *)
(* The tree that prepare_parser assembles                                *)
(* --------------------------------------------------------------------- *)

Lemma prepare_parser_assembles env prog args w :
  heap w = [] ->
  prepare_parser env (prog :: args) w = (Ok 0, set_heap (assembled prog) w).
Proof.
  destruct w as [h st out err]. cbn [heap]. intros ->.
  destruct env as [tty strip api creds session nodes tags files users xxxs
                     [|]]; vm_compute; reflexivity.
Qed.

Lemma assembled_well_formed prog : well_formed (assembled prog) = true.
Proof. vm_compute. reflexivity. Qed.

Lemma assembled_root prog :
  exists p, assembled prog !! 0 = Some (OParser p)
            /\ root_help prog = argparse.format_help (assembled prog) p.
Proof. eexists. split; vm_compute; reflexivity. Qed.

Lemma error_at {A} r message w p :
  heap w !! r = Some (OParser p) ->
  @error A r message w
  = (Raise (SystemExit (ExitCode 2)),
     add_stderr w [Help (argparse.format_help (heap w) p); Line "";
                   Line message]).
Proof.
  intros Hp. unfold error, argparse.print_help_err.
  erewrite bind_Ok; cycle 1.
  { rewrite (bind_Ok _ _ _ _ _ (get_parser_at _ _ _ Hp)). reflexivity. }
  unfold bind, print_err, raise, add_stderr. cbn.
  now rewrite <- !app_assoc.
Qed.

Lemma main_runs env prog args w :
  heap w = [] ->
  main env (prog :: args) w
  = match Parse.parse_args env 0 args (set_heap (assembled prog) w) with
    | (Raise e, w) => handle 0 None e w
    | (Ok options, w) =>
        match dispatch env 0 options w with
        | (Raise e, w) => handle 0 (Some options) e w
        | (Ok tt, w) => (Ok tt, w)
        end
    end.
Proof.
  intros Hw. unfold main.
  now rewrite (bind_Ok _ _ _ _ _ (prepare_parser_assembles env prog args w Hw)).
Qed.

(* --------------------------------------------------------------------- *)
(* Commands are polite                                                   *)
(* --------------------------------------------------------------------- *)

Create HintDb polite.

Lemma polite_ret {A} (a : A) : polite (ret a).
Proof. intros w r w' H. now inversion H. Qed.

Lemma polite_raise_Exception {A} c msg : polite (@raise A (Exception c msg)).
Proof. intros w r w' H. now inversion H. Qed.

Lemma polite_lift {A} (x : result A) : exits x = false -> polite (lift x).
Proof. intros Hx w r w' H. now inversion H; subst. Qed.

Lemma polite_bind {A B} (m : M A) (k : A -> M B) :
  polite m -> (forall a, polite (k a)) -> polite (bind m k).
Proof.
  intros Hm Hk w r w' H.
  destruct (bind_inv _ _ _ _ _ H) as [(a & w1 & H1 & H2)|(e & H1 & ->)].
  - destruct (Hm _ _ _ H1) as (Hh & He & _).
    destruct (Hk _ _ _ _ H2) as (Hh' & He' & Hr).
    repeat split; congruence.
  - apply (Hm _ _ _ H1).
Qed.

Lemma polite_get_store : polite get_store.
Proof. intros w r w' H. now inversion H. Qed.

Lemma polite_put_store s : polite (put_store s).
Proof. intros w r w' H. now inversion H. Qed.

Lemma polite_print o : polite (print o).
Proof. intros w r w' H. now inversion H. Qed.

#[export] Hint Resolve polite_ret polite_raise_Exception polite_lift
  polite_get_store polite_put_store polite_print : polite.

Ltac polite_step :=
  match goal with
  | |- polite (bind _ _) => apply polite_bind; [|intros ?]
  | |- polite (match ?x with _ => _ end) => destruct x
  | |- polite _ => solve [auto with polite]
  end.

Lemma polite_attr options k : polite (attr options k).
Proof. unfold attr. repeat polite_step. Qed.

Lemma polite_getitem n : polite (ProfileConfig.getitem n).
Proof.
  unfold ProfileConfig.getitem, ProfileConfig.not_found. repeat polite_step.
Qed.

Lemma polite_setitem n p : polite (ProfileConfig.setitem n p).
Proof. unfold ProfileConfig.setitem. repeat polite_step. Qed.

Lemma polite_delitem n : polite (ProfileConfig.delitem n).
Proof.
  unfold ProfileConfig.delitem, ProfileConfig.not_found. repeat polite_step.
Qed.

Lemma polite_names : polite ProfileConfig.names.
Proof. unfold ProfileConfig.names. repeat polite_step. Qed.

Lemma polite_print_table env data : polite (print_table env data).
Proof. unfold print_table. auto with polite. Qed.

Lemma polite_login_check u c i : polite (login_check u c i).
Proof. intros w r w' H. destruct c; cbn in H; now inversion H. Qed.

Lemma polite_print_whats_next profile : polite (print_whats_next profile).
Proof. unfold print_whats_next. repeat polite_step. Qed.

#[export] Hint Resolve polite_attr polite_getitem polite_setitem
  polite_delitem polite_names polite_print_table polite_login_check
  polite_print_whats_next : polite.

Lemma polite_profile_rows profile_names :
  forall rows, polite (profile_rows profile_names rows).
Proof.
  induction profile_names as [|n rest IH]; intros rows; cbn [profile_rows].
  - auto with polite.
  - repeat polite_step; try apply IH.
Qed.

Lemma polite_Credentials_from creds : polite (Credentials_from creds).
Proof. unfold Credentials_from. repeat polite_step. Qed.
#[export] Hint Resolve polite_profile_rows polite_Credentials_from : polite.

Section Polite.
Variable env : environment.
Hypothesis Henv : well_behaved env.

Lemma polite_refresh_each profile_names :
  polite (refresh_each env profile_names).
Proof.
  destruct Henv as (_ & Hsession & _).
  induction profile_names as [|n rest IH]; cbn [refresh_each].
  - auto with polite.
  - repeat polite_step; try exact IH.
Qed.

Lemma polite_Command_call c options : polite (Command_call env c options).
Proof.
  destruct Henv as (Hcreds & Hsession & Hnodes & Htags & Hfiles & Husers
                    & Hxxxs).
  pose proof polite_refresh_each as Hrefresh.
  unfold Command_call.
  destruct (impl (cls c));
    unfold login_call, logout_call, list_profiles_call,
      refresh_profiles_call, OriginCommand_call, fromProfileName,
      list_nodes_execute, list_tags_execute, list_files_execute,
      list_users_execute, list_xxx_execute;
    repeat polite_step.
Qed.
End Polite.

(* --------------------------------------------------------------------- *)
(* What parse_args can raise                                             *)
(* --------------------------------------------------------------------- *)

Lemma usage_ret {A} h (a : A) : usage_only h (ret a).
Proof. intros w r w' _ H e ->. inversion H. Qed.

Lemma usage_bind {A B} h (m : M A) (k : A -> M B) :
  usage_only h m -> preserves same_heap m ->
  (forall a, usage_only h (k a)) -> usage_only h (bind m k).
Proof.
  intros Hm Hheap Hk w r w' Hw H e ->.
  destruct (bind_inv _ _ _ _ _ H) as [(a & w1 & H1 & H2)|(e' & H1 & He)].
  - apply (Hk a w1 (Raise e) w'); [|exact H2|reflexivity].
    rewrite <- Hw. apply (Hheap _ _ _ H1).
  - inversion He; subst. now apply (Hm w (Raise e') w' eq_refl H1).
Qed.

Lemma is_parser_at_lookup h r :
  is_parser_at h r = true -> exists p, h !! r = Some (OParser p).
Proof.
  unfold is_parser_at. destruct (h !! r) as [[p|s]|]; try discriminate. eauto.
Qed.

Lemma usage_error {A} h self message :
  is_parser_at h self = true -> usage_only h (@error A self message).
Proof.
  intros Hself w r w' Hw H e ->.
  destruct (is_parser_at_lookup _ _ Hself) as (p & Hp). subst h.
  rewrite (error_at _ _ _ _ Hp) in H. inversion H. now left.
Qed.

Lemma usage_help h self :
  is_parser_at h self = true ->
  usage_only h (argparse.print_help self ;;;
                @raise (Namespace * list string) (SystemExit (ExitCode 0))).
Proof.
  intros Hself w r w' Hw H e ->.
  destruct (is_parser_at_lookup _ _ Hself) as (p & Hp). subst h.
  unfold argparse.print_help in H.
  rewrite (bind_Ok _ _ _ _ _
             (bind_Ok _ _ _ _ _ (get_parser_at _ _ _ Hp))) in H.
  cbn in H. inversion H. now right.
Qed.

Lemma usage_convert env h self a arg :
  is_parser_at h self = true ->
  usage_only h (Parse.convert env self a arg).
Proof.
  intros Hself. unfold Parse.convert.
  destruct (kind a) as [n [|]| | |]; try apply usage_ret.
  destruct (api_url env arg); [apply usage_ret|now apply usage_error].
Qed.

Lemma usage_finish h self ps ns extras :
  is_parser_at h self = true ->
  usage_only h (Parse.finish self ps ns extras).
Proof.
  intros Hself. unfold Parse.finish.
  destruct (Parse.plan ps 0 ns) as [[q pending] ns'].
  destruct (List.filter _ pending); [apply usage_ret|now apply usage_error].
Qed.

Section Valid.
Variable P : Action -> bool.

Lemma reach_valid ps :
  forall n,
    forallb P ps = true ->
    forallb P (fst (Parse.reach ps n)) = true
    /\ forallb P (snd (Parse.reach ps n)) = true.
Proof.
  induction ps as [|a ps IH]; intros n H; cbn; [auto|].
  cbn in H. apply andb_prop in H as [Ha Hps].
  destruct (Parse.needs a <=? n)%nat; cbn; [|now rewrite Ha, Hps].
  destruct (argparse.is_subparsers a); cbn; [now rewrite Ha, Hps|].
  specialize (IH (n - Parse.needs a) Hps).
  destruct (Parse.reach ps (n - Parse.needs a)) as [m r]; cbn in *.
  now rewrite Ha.
Qed.

Lemma takers_fst matched :
  forall m, List.map fst (Parse.takers matched m) = matched.
Proof.
  induction matched as [|a rest IH]; intros m; cbn [Parse.takers];
    [reflexivity|].
  destruct (Parse.needs a =? 1)%nat;
    [|destruct (Parse.required rest <? m)%nat];
    cbn [List.map fst]; now rewrite IH.
Qed.

Lemma filter_valid (keep : Action * bool -> bool) t :
  forallb P (List.map fst t) = true ->
  forallb P (List.map fst (List.filter keep t)) = true.
Proof.
  induction t as [|x t IH]; cbn; [reflexivity|].
  intros H. apply andb_prop in H as [Hx Ht].
  destruct (keep x); cbn; rewrite ?Hx; now apply IH.
Qed.

Lemma plan_valid ps n ns :
  forallb P ps = true ->
  forallb P (fst (fst (Parse.plan ps n ns))) = true
  /\ forallb P (snd (fst (Parse.plan ps n ns))) = true.
Proof.
  intros H. unfold Parse.plan.
  destruct (reach_valid ps n H) as [Hm Hr].
  destruct (Parse.reach ps n) as [m r]; cbn in *.
  split; [apply filter_valid; now rewrite takers_fst|exact Hr].
Qed.
End Valid.

Lemma dict_get_In {V} (d : list (string * V)) k v :
  dict_get d k = Some v -> In (k, v) d.
Proof.
  induction d as [|[k' v'] d IH]; cbn; [discriminate|].
  destruct (String.eqb k k') eqn:E; intros H.
  - apply String.eqb_eq in E. inversion H; subst. now left.
  - right. now apply IH.
Qed.

Lemma valid_subparser h act sa :
  valid_action h act = true ->
  kind act = SubParsersActionRef sa ->
  exists s,
    h !! sa = Some (OSubParsers s)
    /\ forall n sub,
        dict_get (_name_parser_map s) n = Some sub ->
        is_parser_at h sub = true.
Proof.
  unfold valid_action. intros H Hk. rewrite Hk in H.
  destruct (h !! sa) as [[p|s]|]; try discriminate.
  exists s. split; [reflexivity|]. intros n sub Hn.
  apply dict_get_In in Hn.
  rewrite forallb_forall in H. apply (H _ Hn).
Qed.

Lemma well_formed_positionals h r p :
  well_formed h = true ->
  h !! r = Some (OParser p) ->
  forallb (valid_action h) (Parse.positionals p) = true.
Proof.
  intros Hwf Hp. unfold well_formed in Hwf. rewrite forallb_forall in Hwf.
  assert (Hin : In (OParser p) h).
  { apply list_elem_of_In, list_elem_of_lookup. eauto. }
  specialize (Hwf _ Hin). cbn in Hwf.
  unfold Parse.positionals. apply forallb_forall. intros a Ha.
  apply filter_In in Ha as [Ha _]. rewrite forallb_forall in Hwf. auto.
Qed.

Lemma usage_parse_loop env h args :
  well_formed h = true ->
  forall self p ps queue fresh enabled ns extras,
    is_parser_at h self = true ->
    forallb (valid_action h) ps = true ->
    forallb (valid_action h) queue = true ->
    usage_only h
      (Parse.parse_loop env h self p ps queue fresh enabled ns extras args).
Proof.
  intros Hwf.
  induction args as [|a rest IH]; intros self p ps queue fresh enabled ns
    extras Hself Hps Hq; cbn [Parse.parse_loop].
  - now apply usage_finish.
  - destruct (enabled && String.eqb a "--"); [now apply IH|].
    destruct (enabled && Parse.is_option p a).
    { destruct (Parse.known p a) as [act|]; [|now apply IH].
      destruct (kind act); try (now apply IH).
      now apply usage_help. }
    assert (Hbody : forall queue' ps' ns',
               forallb (valid_action h) queue' = true ->
               forallb (valid_action h) ps' = true ->
               usage_only h
                 match queue' with
                 | [] =>
                     Parse.parse_loop env h self p ps' [] false enabled ns'
                       (extras ++ [a]) rest
                 | act :: queue0 =>
                     match kind act with
                     | SubParsersActionRef sa =>
                         match h !! sa with
                         | Some (OSubParsers s) =>
                             match dict_get (_name_parser_map s) a with
                             | Some sub =>
                                 match h !! sub with
                                 | Some (OParser sp) =>
                                     r <- Parse.parse_loop env h sub sp
                                            (Parse.positionals sp) [] true
                                            true (Parse.init_namespace sp)
                                            [] rest ;;
                                     Parse.finish self ps'
                                       (Parse.merge ns' (fst r))
                                       (extras ++ snd r)
                                 | _ => no_such_object
                                 end
                             | None =>
                                 error self
                                   ("argument "
                                    ++ argparse.choices_metavar s
                                    ++ ": invalid choice: " ++ Parse.repr a
                                    ++ " (choose from "
                                    ++ Str.join ", "
                                         (List.map Parse.repr
                                            (dict_keys (_name_parser_map s)))
                                    ++ ")")
                             end
                         | _ => no_such_object
                         end
                     | _ =>
                         v <- Parse.convert env self act a ;;
                         Parse.parse_loop env h self p ps' queue0 false
                           enabled (setattr ns' (dest act) v) extras rest
                     end
                 end).
    { intros queue' ps' ns' Hq' Hps'.
      destruct queue' as [|act queue0]; [now apply IH|].
      cbn in Hq'. apply andb_prop in Hq' as [Hact Hq0].
      destruct (kind act) as [n t| | |sa] eqn:Hkind;
        try (apply usage_bind;
             [now apply usage_convert|apply heap_convert
             |intros v; now apply IH]).
      destruct (valid_subparser _ _ _ Hact Hkind) as (s & Hs & Hsubs).
      rewrite Hs.
      destruct (dict_get (_name_parser_map s) a) as [sub|] eqn:Hsub;
        [|now apply usage_error].
      pose proof (Hsubs _ _ Hsub) as Hparser.
      destruct (is_parser_at_lookup _ _ Hparser) as (sp & Hsp). rewrite Hsp.
      apply usage_bind.
      - apply IH; [exact Hparser| |reflexivity].
        now apply (well_formed_positionals h sub).
      - apply heap_parse_loop.
      - intros r. now apply usage_finish. }
    destruct fresh; [|now apply Hbody].
    pose proof (plan_valid (valid_action h) ps
                  (Parse.run_length p enabled (a :: rest)) ns Hps)
      as [Hq' Hps'].
    destruct (Parse.plan ps _ ns) as [[q pending] ns'].
    now apply Hbody.
Qed.

Lemma usage_parse_args env h self args :
  well_formed h = true ->
  is_parser_at h self = true ->
  usage_only h (Parse.parse_args env self args).
Proof.
  intros Hwf Hself w r w' Hw H e ->.
  destruct (is_parser_at_lookup _ _ Hself) as (p & Hp). subst h.
  unfold Parse.parse_args in H.
  rewrite (bind_Ok _ _ _ _ _ (get_parser_at _ _ _ Hp)) in H.
  unfold bind at 1, get_heap in H.
  refine (usage_bind (heap w) _ _ _ _ _ w _ w' eq_refl H e eq_refl).
  - apply usage_parse_loop; auto.
    now apply (well_formed_positionals (heap w) self).
  - apply heap_parse_loop.
  - intros r. destruct (snd r); [apply usage_ret|now apply usage_error].
Qed.

(* --------------------------------------------------------------------- *)
(* Commands leave the heap alone                                         *)
(* --------------------------------------------------------------------- *)

Lemma heap_attr options k : preserves same_heap (attr options k).
Proof. unfold attr. repeat heap_step. Qed.

Lemma heap_getitem n : preserves same_heap (ProfileConfig.getitem n).
Proof.
  unfold ProfileConfig.getitem, ProfileConfig.not_found. repeat heap_step.
Qed.

Lemma heap_setitem n p : preserves same_heap (ProfileConfig.setitem n p).
Proof. unfold ProfileConfig.setitem. repeat heap_step. Qed.

Lemma heap_delitem n : preserves same_heap (ProfileConfig.delitem n).
Proof.
  unfold ProfileConfig.delitem, ProfileConfig.not_found. repeat heap_step.
Qed.

Lemma heap_names : preserves same_heap ProfileConfig.names.
Proof. unfold ProfileConfig.names. repeat heap_step. Qed.

Lemma heap_print_table env data : preserves same_heap (print_table env data).
Proof. unfold print_table. auto with heap. Qed.

Lemma heap_login_check u c i : preserves same_heap (login_check u c i).
Proof. unfold login_check. repeat heap_step. Qed.

Lemma heap_print_whats_next profile :
  preserves same_heap (print_whats_next profile).
Proof. unfold print_whats_next. repeat heap_step. Qed.

Lemma heap_Credentials_from creds :
  preserves same_heap (Credentials_from creds).
Proof. unfold Credentials_from. repeat heap_step. Qed.

#[export] Hint Resolve heap_attr heap_getitem heap_setitem heap_delitem
  heap_names heap_print_table heap_login_check heap_print_whats_next
  heap_Credentials_from : heap.

Lemma heap_profile_rows profile_names :
  forall rows, preserves same_heap (profile_rows profile_names rows).
Proof.
  induction profile_names as [|n rest IH]; intros rows; cbn [profile_rows].
  - auto with heap.
  - repeat heap_step; try apply IH.
Qed.

Lemma heap_refresh_each env profile_names :
  preserves same_heap (refresh_each env profile_names).
Proof.
  induction profile_names as [|n rest IH]; cbn [refresh_each].
  - auto with heap.
  - repeat heap_step; try exact IH.
Qed.
#[export] Hint Resolve heap_profile_rows heap_refresh_each : heap.

Lemma heap_Command_call env c options :
  preserves same_heap (Command_call env c options).
Proof.
  unfold Command_call.
  destruct (impl (cls c));
    unfold login_call, logout_call, list_profiles_call,
      refresh_profiles_call, OriginCommand_call, fromProfileName,
      list_nodes_execute, list_tags_execute, list_files_execute,
      list_users_execute, list_xxx_execute;
    repeat heap_step.
Qed.

(* --------------------------------------------------------------------- *)
(* main: what becomes of a failure                                       *)
(* --------------------------------------------------------------------- *)

Lemma handle_Exception prog options k msg w :
  heap w = assembled prog ->
  handle 0 (Some options) (Exception k msg) w
  = match getattr options "debug" with
    | Some debug =>
        if truthy debug then (Raise (Exception k msg), w)
        else (Raise (SystemExit (ExitCode 2)),
              add_stderr w [Help (root_help prog); Line ""; Line msg])
    | None =>
        (Raise (Exception "AttributeError"
                  ("'Namespace' object has no attribute "
                   ++ Parse.repr "debug")), w)
    end.
Proof.
  intros Hw. destruct (assembled_root prog) as (p & Hp & Hhelp).
  unfold handle, attr, bind.
  destruct (getattr options "debug") as [debug|]; [|reflexivity].
  cbn [ret]. destruct (truthy debug); [reflexivity|].
  rewrite <- Hw in Hp. rewrite (error_at _ _ _ _ Hp).
  rewrite Hhelp. rewrite Hw. reflexivity.
Qed.

Lemma heap_set_heap h w : heap (set_heap h w) = h.
Proof. reflexivity. Qed.

Lemma parsed_heap env prog args w options w2 :
  Parse.parse_args env 0 args (set_heap (assembled prog) w) = (Ok options, w2) ->
  heap w2 = assembled prog.
Proof.
  intros H. rewrite <- (heap_set_heap (assembled prog) w).
  exact (heap_parse_args _ _ _ _ _ _ H).
Qed.



Lemma assembled_root_is_parser prog : is_parser_at (assembled prog) 0 = true.
Proof. vm_compute. reflexivity. Qed.

Lemma handle_failure prog options k msg w :
  heap w = assembled prog ->
  failure_outcome options (Exception k msg)
    (fst (handle 0 (Some options) (Exception k msg) w)).
Proof.
  intros Hw. rewrite (handle_Exception prog options k msg w Hw).
  unfold failure_outcome.
  destruct (getattr options "debug") as [debug|]; [|reflexivity].
  destruct (truthy debug); split; reflexivity.
Qed.



(* --------------------------------------------------------------------- *)
(* The theorems at concrete inputs                                       *)
(* --------------------------------------------------------------------- *)

Lemma legacy_well_behaved : well_behaved legacy.
Proof. repeat split. Qed.




Lemma duplicate_name_is_left_to_argparse_witness :
  node_ready (login_registered checking) 0
  /\ taken (login_registered checking) 0 "login" = true
  /\ exists message,
      register checking cmd_login 0 None (login_registered checking)
      = (Raise (Exception "ArgumentError" message),
         login_registered checking).
Proof.
  assert (Hready : node_ready (login_registered checking) 0).
  { eexists. split; [vm_compute; reflexivity|].
    cbn [subparsers_attr]. eexists. vm_compute. reflexivity. }
  split; [exact Hready|]. split; [vm_compute; reflexivity|].
  assert (Htaken : taken (login_registered checking) 0
                     (registered_as cmd_login None) = true)
    by (vm_compute; reflexivity).
  exact (duplicate_name_is_left_to_argparse checking cmd_login 0 None
           (login_registered checking) Hready Htaken).
Defined.

Lemma subparsers_created_on_first_use_witness :
  exists w',
    subparsers 0 root_created = (Ok 1, w')
    /\ facility_of w' 0 = Some 1
    /\ subparsers 0 w' = (Ok 1, w').
Proof.
  destruct (subparsers_created_on_first_use legacy 0 root_created
              (blank_parser "maas" "Interact with a remote MAAS server."
                 "http://maas.ubuntu.com/")
              eq_refl eq_refl eq_refl)
    as (_ & (w' & Hfirst & _ & _ & Hheld & _ & Hlater) & _).
  exists w'. split; [exact Hfirst|]. split; [exact Hheld|].
  exact (proj1 (Hlater [])).
Defined.

Lemma listings_print_sorted_rows_witness :
  prints_sorted legacy (list_nodes_execute legacy anonymous_dev [])
    (initial ∅) ["b"; "a"].
Proof.
  exact (proj1 (proj2 (listings_print_sorted_rows legacy anonymous_dev []
                         (initial ∅)))
           _ eq_refl).
Defined.

(* ===================================================================== *)
(* Further properties of the commands                                    *)
(* ===================================================================== *)

(* --------------------------------------------------------------------- *)
(* Command names                                                         *)
(* --------------------------------------------------------------------- *)

Lemma name_char_lower_hyphenate c :
  name_char (Str.lower_char (NamingRule.hyphenate c)) = true.
Proof. destruct c as [[|] [|] [|] [|] [|] [|] [|] [|]]; vm_compute; reflexivity. Qed.

Lemma strip_cmd_keeps (P : ascii -> bool) cs :
  forallb P cs = true -> forallb P (NamingRule.strip_cmd cs) = true.
Proof.
  intros H.
  assert (Hdrop : forall k, forallb P (List.skipn k cs) = true).
  { intros k. apply forallb_forall. intros x Hx.
    rewrite forallb_forall in H. apply H.
    rewrite <- (List.firstn_skipn k cs). apply in_or_app. now right. }
  unfold NamingRule.strip_cmd.
  repeat match goal with
         | |- forallb P (match ?x with _ => _ end) = true =>
             destruct x; try exact H
         end.
  exact (Hdrop 4).
Qed.

Lemma strip_cmd_length cs :
  length (NamingRule.strip_cmd cs) <= length cs.
Proof.
  unfold NamingRule.strip_cmd.
  repeat match goal with
         | |- length (match ?x with _ => _ end) <= _ =>
             destruct x; try reflexivity
         end.
  cbn. lia.
Qed.

Lemma length_list_ascii s :
  length (list_ascii_of_string s) = String.length s.
Proof. induction s as [|c s IH]; cbn; congruence. Qed.


(* --------------------------------------------------------------------- *)
(* prep_table                                                            *)
(* --------------------------------------------------------------------- *)


(* --------------------------------------------------------------------- *)
(* login and logout                                                      *)
(* --------------------------------------------------------------------- *)

Lemma logout_call_runs options n w :
  getattr options "profile_name" = Some (VStr n) ->
  logout_call options w
  = match store w !! n with
    | Some _ => (Ok tt, set_store (delete n (store w)) w)
    | None => (Raise (Exception "KeyError" (Parse.repr n)), w)
    end.
Proof.
  intros Hn. unfold logout_call, attr, bind. rewrite Hn. cbn [ret as_str].
  unfold ProfileConfig.delitem, bind, get_store.
  now destruct (store w !! n).
Qed.

Lemma login_call_runs env options n u given i w :
  getattr options "profile_name" = Some (VStr n) ->
  getattr options "url" = Some (VStr u) ->
  getattr options "credentials" = Some given ->
  getattr options "insecure" = Some (VBool i) ->
  login_call env options w
  = match obtain_credentials env (as_opt_str given) with
    | Raise e => (Raise e, w)
    | Ok creds =>
        match fromURL env u creds i with
        | Raise e => (Raise e, w)
        | Ok d =>
            let profile := {| credentials := creds; description := d;
                              name := n; url := u |} in
            (Ok tt,
             add_stdout (set_store (<[n := profile]> (store w)) w)
               (whats_next profile))
        end
    end.
Proof.
  intros Hn Hu Hc Hi. unfold login_call, attr.
  rewrite Hn, Hu, Hc, Hi. unfold bind at 1. cbn [ret].
  unfold bind at 1, lift.
  destruct (obtain_credentials env (as_opt_str given)) as [creds|e];
    [|reflexivity].
  unfold bind at 1. cbn [ret]. unfold bind at 1. cbn [ret].
  cbn [as_str truthy].
  assert (Hcheck : login_check u creds i w = (Ok tt, w))
    by (destruct creds; reflexivity).
  unfold bind at 1. rewrite Hcheck.
  unfold bind at 1.
  destruct (fromURL env u creds i) as [d|e]; [|reflexivity].
  unfold bind at 1. cbn [ret].
  cbv beta iota delta [ProfileConfig.setitem ProfileConfig.getitem get_store
    put_store bind ret store heap stdout stderr as_str].
  rewrite lookup_insert_eq.
  cbv beta iota zeta delta [print_whats_next print bind add_stdout set_store
    whats_next store heap stdout stderr url name].
  now rewrite <- !app_assoc.
Qed.

(** X3: logout removes exactly the named profile.  When the store holds a
    profile under the name, logout returns, the name is gone afterwards
    and every other entry is as before; when it does not, logout fails
    with KeyError on the name and changes nothing.  In neither case is
    anything printed. *)
Theorem logout_removes_exactly_the_named_profile
  (options : Namespace) (n : string) (w : world)
  (Hname : getattr options "profile_name" = Some (VStr n)) :
  let run := logout_call options w in
  heap (snd run) = heap w /\ stdout (snd run) = stdout w
  /\ stderr (snd run) = stderr w
  /\ (forall m, m <> n -> store (snd run) !! m = store w !! m)
  /\ match store w !! n with
     | Some _ => fst run = Ok tt /\ store (snd run) !! n = None
     | None =>
         fst run = Raise (Exception "KeyError" (Parse.repr n))
         /\ snd run = w
     end.
Proof.
  intros run. subst run. rewrite (logout_call_runs options n w Hname).
  destruct (store w !! n) as [p|] eqn:E; cbn [fst snd set_store heap store
    stdout stderr]; repeat split; try reflexivity.
  - intros m Hm. now apply lookup_delete_ne.
  - apply lookup_delete_eq.
Qed.

(** X4: login saves the profile only once the session is established.  If
    obtaining the credentials or establishing the session fails, login
    passes the failure on and leaves the store and both streams as they
    were.  Otherwise it returns, the store maps the profile name to the
    credentials obtained, the description of the session, the name and the
    url, replacing any earlier profile of that name, every other entry is
    as before, and the seven lines of the what-next message are printed on
    stdout and nothing on stderr. *)
Theorem login_saves_profile_after_session
  (env : environment) (options : Namespace) (n u : string) (given : value)
  (i : bool) (w : world)
  (Hname : getattr options "profile_name" = Some (VStr n))
  (Hurl : getattr options "url" = Some (VStr u))
  (Hgiven : getattr options "credentials" = Some given)
  (Hinsecure : getattr options "insecure" = Some (VBool i)) :
  let run := login_call env options w in
  match obtain_credentials env (as_opt_str given) with
  | Raise e => run = (Raise e, w)
  | Ok creds =>
      match fromURL env u creds i with
      | Raise e => run = (Raise e, w)
      | Ok d =>
          let profile := {| credentials := creds; description := d;
                            name := n; url := u |} in
          fst run = Ok tt
          /\ store (snd run) !! n = Some profile
          /\ (forall m, m <> n -> store (snd run) !! m = store w !! m)
          /\ stdout (snd run) = (stdout w ++ whats_next profile)%list
          /\ stderr (snd run) = stderr w
          /\ heap (snd run) = heap w
      end
  end.
Proof.
  intros run. subst run.
  rewrite (login_call_runs env options n u given i w Hname Hurl Hgiven
             Hinsecure).
  destruct (obtain_credentials env (as_opt_str given)) as [creds|e];
    [|reflexivity].
  destruct (fromURL env u creds i) as [d|e]; [|reflexivity].
  cbn [fst snd add_stdout set_store heap store stdout stderr].
  repeat split.
  - apply lookup_insert_eq.
  - intros m Hm. now apply lookup_insert_ne.
Qed.

(** X5: logging in under a name that the store does not hold yet and then
    logging out of it leaves the store exactly as it was before. *)
Theorem login_then_logout_restores_the_store
  (env : environment) (options : Namespace) (n u : string) (given : value)
  (i : bool) (w : world) (creds : option Credentials) (d : string)
  (Hname : getattr options "profile_name" = Some (VStr n))
  (Hurl : getattr options "url" = Some (VStr u))
  (Hgiven : getattr options "credentials" = Some given)
  (Hinsecure : getattr options "insecure" = Some (VBool i))
  (Hcreds : obtain_credentials env (as_opt_str given) = Ok creds)
  (Hsession : fromURL env u creds i = Ok d)
  (Hnew : store w !! n = None) :
  fst (login_call env options w) = Ok tt
  /\ fst (logout_call options (snd (login_call env options w))) = Ok tt
  /\ store (snd (logout_call options (snd (login_call env options w))))
     = store w.
Proof.
  rewrite (login_call_runs env options n u given i w Hname Hurl Hgiven
             Hinsecure), Hcreds, Hsession.
  cbn [fst snd]. rewrite (logout_call_runs options n _ Hname).
  cbn [add_stdout set_store store]. rewrite lookup_insert_eq.
  cbn [fst snd set_store store].
  repeat split. rewrite delete_insert_eq. now apply delete_id.
Qed.

(* --------------------------------------------------------------------- *)
(* Commands bound to an origin                                           *)
(* --------------------------------------------------------------------- *)

(** X6: a command that derives from OriginCommand resolves the profile
    named on the command line before it does anything else.  When the
    store holds no profile of that name the command fails with KeyError on
    the name, whatever the server would have answered, and prints and
    changes nothing; when it does, the command is the execute of its class
    run on the origin of that profile. *)
Theorem origin_command_resolves_profile_first
  (env : environment) (c : Command) (options : Namespace) (n : string)
  (w : world)
  (Horigin : origin_bound (impl (cls c)) = true)
  (Hname : getattr options "profile_name" = Some (VStr n)) :
  match store w !! n with
  | None =>
      Command_call env c options w
      = (Raise (Exception "KeyError" (Parse.repr n)), w)
  | Some origin =>
      Command_call env c options w
      = match impl (cls c) with
        | list_nodes => list_nodes_execute env origin options w
        | list_tags => list_tags_execute env origin options w
        | list_files => list_files_execute env origin options w
        | list_users => list_users_execute env origin options w
        | _ => list_xxx_execute env origin options w
        end
  end.
Proof.
  unfold Command_call.
  destruct (impl (cls c)); try discriminate;
    unfold OriginCommand_call, attr; rewrite Hname;
    cbv beta iota delta [bind ret as_str fromProfileName
      ProfileConfig.getitem get_store];
    destruct (store w !! n); reflexivity.
Qed.

(* --------------------------------------------------------------------- *)
(* The shape of the tables                                               *)
(* --------------------------------------------------------------------- *)

Lemma listing_is_rectangular env (header : list cell) (body : list row) k w :
  length header = k ->
  (forall r, In r body -> length (cells r) = k) ->
  exists t,
    print_table env ([header] ++ List.map cells (sorted itemgetter0 body)) w
    = (Ok tt, add_stdout w [Table (isatty env) t])
    /\ length t = S (length body)
    /\ forall r, In r t -> length r = k.
Proof.
  intros Hheader Hbody. eexists. split; [reflexivity|]. split.
  - unfold prep_table. cbn [app List.map length].
    rewrite !List.length_map.
    now rewrite (Permutation_length (sorted_perm itemgetter0 body)).
  - intros r Hr. unfold prep_table in Hr.
    apply in_map_iff in Hr as (r0 & <- & Hr0). rewrite List.length_map.
    cbn [app] in Hr0. destruct Hr0 as [<-|Hr0]; [exact Hheader|].
    apply in_map_iff in Hr0 as (r1 & <- & Hr1). apply Hbody.
    apply (Permutation_in _ (sorted_perm itemgetter0 body)), Hr1.
Qed.

(** X7: the tables of list-nodes, list-tags, list-files and list-users are
    rectangular: one header row and one row for each record served, every
    row 7, 4, 1 and 3 columns wide.  The table of list-profiles is not:
    below a header of 2 columns, the row of a profile with credentials has
    2 columns and the row of an anonymous profile has 3. *)
Theorem listing_tables_widths
  (env : environment) (origin : Profile) (options : Namespace) (w : world) :
  (forall nodes, Nodes env origin = Ok nodes ->
     exists t,
       list_nodes_execute env origin options w
       = (Ok tt, add_stdout w [Table (isatty env) t])
       /\ length t = S (length nodes)
       /\ forall r, In r t -> length r = 7)
  /\ (forall tags, Tags env origin = Ok tags ->
        exists t,
          list_tags_execute env origin options w
          = (Ok tt, add_stdout w [Table (isatty env) t])
          /\ length t = S (length tags)
          /\ forall r, In r t -> length r = 4)
  /\ (forall files, Files env origin = Ok files ->
        exists t,
          list_files_execute env origin options w
          = (Ok tt, add_stdout w [Table (isatty env) t])
          /\ length t = S (length files)
          /\ forall r, In r t -> length r = 1)
  /\ (forall users, Users env origin = Ok users ->
        exists t,
          list_users_execute env origin options w
          = (Ok tt, add_stdout w [Table (isatty env) t])
          /\ length t = S (length users)
          /\ forall r, In r t -> length r = 3)
  /\ list_profiles_call env options w
     = (Ok tt,
        add_stdout w
          [Table (isatty env)
             ([Plain "Profile name"; Plain "URL"]
              :: prep_table
                   (List.map (profile_row (store w))
                      (sorted id (elements (dom (store w))))))])
  /\ (forall n p,
        store w !! n = Some p ->
        length (profile_row (store w) n)
        = match credentials p with None => 3 | Some _ => 2 end).
Proof.
  assert (Hlisting : forall A (f : A -> row) header (served : list A) k,
             length header = k ->
             (forall x, length (cells (f x)) = k) ->
             exists t,
               print_table env
                 ([header]
                  ++ List.map cells (sorted itemgetter0 (List.map f served)))
                 w
               = (Ok tt, add_stdout w [Table (isatty env) t])
               /\ length t = S (length served)
               /\ forall r, In r t -> length r = k).
  { intros A f header served k Hheader Hrow.
    destruct (listing_is_rectangular env header (List.map f served) k w
                Hheader) as (t & Ht & Hlen & Hw).
    - intros r Hr. apply in_map_iff in Hr as (x & <- & _). apply Hrow.
    - exists t. rewrite List.length_map in Hlen. auto. }
  repeat split.
  - intros nodes H. unfold list_nodes_execute, bind, lift. rewrite H.
    now apply Hlisting.
  - intros tags H. unfold list_tags_execute, bind, lift. rewrite H.
    now apply Hlisting.
  - intros files H. unfold list_files_execute, bind, lift. rewrite H.
    now apply Hlisting.
  - intros users H. unfold list_users_execute, bind, lift. rewrite H.
    now apply Hlisting.
  - assert (Hall : Forall (fun n => is_Some (store w !! n))
                     (sorted id (elements (dom (store w))))).
    { apply Forall_forall. intros n Hin.
      apply list_elem_of_In in Hin.
      apply (Permutation_in _ (sorted_perm id _)) in Hin.
      apply list_elem_of_In in Hin.
      apply elem_of_dom, elem_of_elements, Hin. }
    unfold list_profiles_call, ProfileConfig.names.
    unfold bind at 1, bind at 1, get_store. cbn [ret].
    unfold bind. rewrite (profile_rows_stored _ _ _ Hall). reflexivity.
  - intros n p Hp. unfold profile_row. rewrite Hp.
    now destruct (credentials p).
Qed.

(** X8: the template command list-xxx assumes that the origin serves at
    least one record.  When it serves none the command fails with
    IndexError and prints nothing.  Otherwise it prints one table whose
    header is the field names of the first record in ascending order,
    followed by one row for each record in the order served, each as wide
    as the header, where a field that a record lacks is shown empty. *)
Theorem list_xxx_takes_fields_of_first_record
  (env : environment) (origin : Profile) (options : Namespace) (w : world) :
  match Xxxs env origin with
  | Raise e => list_xxx_execute env origin options w = (Raise e, w)
  | Ok [] =>
      list_xxx_execute env origin options w
      = (Raise (Exception "IndexError" "list index out of range"), w)
  | Ok (first :: rest) =>
      let fields := sorted id (dict_keys first) in
      let shown := fun (xxx : list (string * cell)) (field : string) =>
                     match dict_get xxx field with
                     | Some c => prep c
                     | None => Plain ""
                     end in
      let body := List.map (fun xxx => List.map (shown xxx) fields)
                    (first :: rest) in
      list_xxx_execute env origin options w
      = (Ok tt,
         add_stdout w
           [Table (isatty env) (List.map Plain fields :: body)])
      /\ ascending fields
      /\ Permutation fields (dict_keys first)
      /\ forall r, In r body -> length r = length fields
  end.
Proof.
  unfold list_xxx_execute, bind at 1, lift.
  destruct (Xxxs env origin) as [[|first rest]|e]; try reflexivity.
  cbv zeta. split; [|split; [|split]].
  - unfold bind, ret, print_table, print, add_stdout, prep_table.
    cbn [app].
    assert (Hrows : forall fields (xxxs : list (list (string * cell))),
               List.map (List.map prep)
                 (List.map
                    (fun xxx =>
                       List.map (fun field =>
                                   match dict_get xxx field with
                                   | Some c => c
                                   | None => CNone
                                   end) fields) xxxs)
               = List.map
                   (fun xxx =>
                      List.map (fun field =>
                                  match dict_get xxx field with
                                  | Some c => prep c
                                  | None => Plain ""
                                  end) fields) xxxs).
    { intros fields xxxs. rewrite List.map_map. apply List.map_ext.
      intros xxx. rewrite List.map_map. apply List.map_ext.
      intros f. now destruct (dict_get xxx f). }
    change (List.map (List.map prep) (?h :: ?t))
      with (List.map prep h :: List.map (List.map prep) t).
    rewrite Hrows, List.map_map. reflexivity.
  - pose proof (sorted_keys_ascending id (dict_keys first)) as H.
    now rewrite List.map_id in H.
  - apply sorted_perm.
  - intros r Hr. apply in_map_iff in Hr as (xxx & <- & _).
    apply List.length_map.
Qed.

(* --------------------------------------------------------------------- *)
(* refresh-profiles                                                      *)
(* --------------------------------------------------------------------- *)

Lemma refresh_each_all env profile_names :
  forall w,
    NoDup profile_names ->
    (forall n, In n profile_names ->
       exists p c d,
         store w !! n = Some p /\ credentials p = Some c
         /\ fromURL env (url p) (Some c) false = Ok d) ->
    exists w',
      refresh_each env profile_names w = (Ok tt, w')
      /\ heap w' = heap w /\ stdout w' = stdout w /\ stderr w' = stderr w
      /\ (forall n, ~ In n profile_names -> store w' !! n = store w !! n)
      /\ (forall n, In n profile_names ->
            exists p c d,
              store w !! n = Some p /\ credentials p = Some c
              /\ fromURL env (url p) (Some c) false = Ok d
              /\ store w' !! n = Some (refreshed p d)).
Proof.
  induction profile_names as [|n rest IH]; intros w Hnodup Hall.
  - exists w. cbn. repeat split; auto. intros n [].
  - apply NoDup_cons in Hnodup as [Hfresh Hnodup].
    assert (Hfresh' : ~ In n rest) by (now rewrite <- list_elem_of_In).
    destruct (Hall n (or_introl eq_refl)) as (p & c & d & Hp & Hc & Hd).
    set (w1 := set_store (<[n := refreshed p d]> (store w)) w).
    assert (Hstep : refresh_each env (n :: rest) w = refresh_each env rest w1).
    { cbn [refresh_each].
      unfold ProfileConfig.getitem, bind at 1, bind at 1, get_store.
      rewrite Hp. cbn [ret]. unfold bind at 1, Credentials_from.
      rewrite Hc. cbn [ret]. unfold bind at 1, lift. rewrite Hd.
      cbv beta iota delta [ProfileConfig.setitem bind get_store put_store].
      subst w1. unfold refreshed, set_store. rewrite Hc. reflexivity. }
    destruct (IH w1 Hnodup) as (w' & Hrun & Hh & Ho & He & Hout & Hin).
    { intros m Hm. destruct (Hall m (or_intror Hm)) as (q & c' & d' & Hq & ?).
      exists q, c', d'. split; [|assumption].
      subst w1. cbn [set_store store]. rewrite lookup_insert_ne; [exact Hq|].
      intros ->. contradiction. }
    exists w'. rewrite Hstep. split; [exact Hrun|].
    repeat split; try (etransitivity; [eassumption|reflexivity]).
    + intros m Hm. rewrite Hout by (intros ?; apply Hm; now right).
      subst w1. cbn [set_store store]. apply lookup_insert_ne.
      intros ->. apply Hm. now left.
    + intros m [<-|Hm].
      * exists p, c, d. repeat split; try assumption.
        rewrite (Hout n Hfresh'). subst w1. cbn [set_store store].
        apply lookup_insert_eq.
      * destruct (Hin m Hm) as (q & c' & d' & Hq & Hc' & Hd' & Hq').
        subst w1. cbn [set_store store] in Hq.
        rewrite lookup_insert_ne in Hq by (intros ->; contradiction).
        exists q, c', d'. auto.
Qed.

(** X9: when every stored profile has credentials and the server grants
    each of them a session, refresh-profiles returns normally; afterwards
    every profile carries the description of its new session and the
    credentials, url and name it had, no profile has appeared or gone,
    and nothing has been printed. *)
Theorem refresh_profiles_refreshes_every_description
  (env : environment) (options : Namespace) (w : world)
  (Hall : forall n p,
      store w !! n = Some p ->
      exists c d, credentials p = Some c
                  /\ fromURL env (url p) (Some c) false = Ok d) :
  exists w',
    refresh_profiles_call env options w = (Ok tt, w')
    /\ heap w' = heap w /\ stdout w' = stdout w /\ stderr w' = stderr w
    /\ forall n,
        match store w !! n with
        | Some p =>
            exists c d,
              credentials p = Some c
              /\ fromURL env (url p) (Some c) false = Ok d
              /\ store w' !! n = Some (refreshed p d)
        | None => store w' !! n = None
        end.
Proof.
  destruct (refresh_each_all env (elements (dom (store w))) w)
    as (w' & Hrun & Hh & Ho & He & Hout & Hin).
  - apply NoDup_elements.
  - intros n Hn. apply list_elem_of_In, elem_of_elements, elem_of_dom in Hn.
    destruct Hn as (p & Hp). destruct (Hall n p Hp) as (c & d & ? & ?).
    exists p, c, d. auto.
  - exists w'. split.
    { unfold refresh_profiles_call, ProfileConfig.names.
      unfold bind at 1, bind at 1, get_store. exact Hrun. }
    repeat split; try assumption.
    intros n. destruct (store w !! n) as [p|] eqn:Hp.
    + destruct (Hin n) as (q & c & d & Hq & ? & ? & ?).
      { apply list_elem_of_In, elem_of_elements, elem_of_dom. eauto. }
      rewrite Hp in Hq. inversion Hq; subst. eauto.
    + rewrite Hout; [exact Hp|].
      intros Hn. apply list_elem_of_In, elem_of_elements, elem_of_dom in Hn.
      destruct Hn as (p & Hp'). congruence.
Qed.

(** X10: whatever happens while it runs, also when a session is refused
    half way or a profile cannot be refreshed, refresh-profiles changes
    nothing but descriptions: no profile is added or removed, the
    credentials, url and name of every profile stay as they were, and
    nothing is printed on either stream. *)
Theorem refresh_profiles_changes_only_descriptions
  (env : environment) (options : Namespace) (w : world) :
  only_descriptions_differ w (snd (refresh_profiles_call env options w)).
Proof.
  unfold refresh_profiles_call, ProfileConfig.names.
  unfold bind at 1, bind at 1, get_store. cbn [ret].
  destruct (refresh_each env (elements (dom (store w))) w) as [r w'] eqn:E.
  exact (refresh_each_frame env _ _ _ _ E).
Qed.

(* --------------------------------------------------------------------- *)
(* Registration touches nothing but the tree                             *)
(* --------------------------------------------------------------------- *)

Lemma same_io_refl w : same_io w w.
Proof. now repeat split. Qed.

Lemma same_io_trans w1 w2 w3 : same_io w1 w2 -> same_io w2 w3 -> same_io w1 w3.
Proof. unfold same_io. intros (? & ? & ?) (? & ? & ?). repeat split; congruence. Qed.

Create HintDb io.

Lemma io_ret {A} (a : A) : returns_keeping same_io (ret a).
Proof. intros w x w' H. inversion H. apply same_io_refl. Qed.

Lemma io_raise {A} e : returns_keeping same_io (@raise A e).
Proof. intros w x w' H. inversion H. Qed.

Lemma io_bind {A B} (m : M A) (k : A -> M B) :
  returns_keeping same_io m -> (forall a, returns_keeping same_io (k a)) ->
  returns_keeping same_io (bind m k).
Proof.
  intros Hm Hk w b w' H.
  destruct (bind_inv_Ok _ _ _ _ _ H) as (a & w1 & H1 & H2).
  eapply same_io_trans; [eapply Hm, H1 | eapply Hk, H2].
Qed.

Lemma io_get_heap : returns_keeping same_io get_heap.
Proof. intros w x w' H. inversion H. apply same_io_refl. Qed.

Lemma io_put_heap h : returns_keeping same_io (put_heap h).
Proof. intros w x w' H. inversion H. now repeat split. Qed.

Lemma io_alloc o : returns_keeping same_io (alloc o).
Proof. intros w x w' H. inversion H. now repeat split. Qed.

Lemma io_no_such_object {A} : returns_keeping same_io (@no_such_object A).
Proof. apply io_raise. Qed.

#[export] Hint Resolve io_ret io_raise io_get_heap io_put_heap io_alloc
  io_no_such_object : io.

Ltac io_step :=
  match goal with
  | |- returns_keeping same_io (bind _ _) => apply io_bind; [|intros ?]
  | |- returns_keeping same_io (match ?x with _ => _ end) => destruct x
  | |- returns_keeping same_io _ => solve [auto with io]
  end.

Lemma io_get_parser r : returns_keeping same_io (get_parser r).
Proof. unfold get_parser. repeat io_step. Qed.

Lemma io_set_parser r p : returns_keeping same_io (set_parser r p).
Proof. unfold set_parser. repeat io_step. Qed.

Lemma io_get_action r : returns_keeping same_io (get_action r).
Proof. unfold get_action. repeat io_step. Qed.

Lemma io_set_action r s : returns_keeping same_io (set_action r s).
Proof. unfold set_action. repeat io_step. Qed.

(* error never returns *)
Lemma io_error {A} r message : returns_keeping same_io (@error A r message).
Proof.
  intros w x w' H. unfold error in H.
  destruct (bind_inv_Ok _ _ _ _ _ H) as (? & ? & _ & H1).
  destruct (bind_inv_Ok _ _ _ _ _ H1) as (? & ? & _ & H2).
  destruct (bind_inv_Ok _ _ _ _ _ H2) as (? & ? & _ & H3).
  inversion H3.
Qed.

#[export] Hint Resolve io_get_parser io_set_parser io_get_action
  io_set_action io_error : io.

Lemma io_add_argument r a : returns_keeping same_io (argparse.add_argument r a).
Proof. unfold argparse.add_argument. repeat io_step. Qed.

Lemma io_set_defaults r kw : returns_keeping same_io (argparse.set_defaults r kw).
Proof. unfold argparse.set_defaults. repeat io_step. Qed.

Lemma io_subparsers r : returns_keeping same_io (subparsers r).
Proof.
  unfold subparsers, super_add_subparsers. repeat io_step.
Qed.

Lemma io_add_parser env a n hl d e :
  returns_keeping same_io (add_parser env a n hl d e).
Proof.
  unfold add_parser, ArgumentParser_new, argparse.new. repeat io_step.
Qed.

#[export] Hint Resolve io_add_argument io_set_defaults io_subparsers
  io_add_parser : io.

Lemma io_Command_new c r : returns_keeping same_io (Command_new c r).
Proof.
  unfold Command_new, Command_init.
  destruct (impl c); repeat io_step.
Qed.
#[export] Hint Resolve io_Command_new : io.

Lemma io_register env c parser name :
  returns_keeping same_io (register env c parser name).
Proof. unfold register. repeat io_step. Qed.

Lemma dict_get_set_ne {V} (d : list (string * V)) k k' v :
  k <> k' -> dict_get (dict_set d k v) k' = dict_get d k'.
Proof.
  intros Hne.
  assert (Hk : String.eqb k' k = false)
    by (apply String.eqb_neq; congruence).
  induction d as [|[k0 v0] d IH]; cbn.
  - now rewrite Hk.
  - destruct (String.eqb k k0) eqn:E; cbn.
    + apply String.eqb_eq in E. subst k0. now rewrite Hk.
    + now rewrite IH.
Qed.

(** X11: registering a command is a step that builds the tree and does
    nothing else.  Whenever register returns, the store and both streams
    are as they were, and every command that was registered on the node
    under another name still resolves to the handler it had. *)
Theorem register_touches_only_its_own_name
  (env : environment) (c : CommandClass) (parser : ref)
  (name : option string) (w w' : world)
  (Hregistered : register env c parser name w = (Ok tt, w')) :
  same_io w w'
  /\ forall other handler,
      other <> match name with
               | None => Command_name (cls_name c)
               | Some n => n
               end ->
      handler_of w parser other = Some handler ->
      handler_of w' parser other = Some handler.
Proof.
  split; [exact (io_register env c parser name _ _ _ Hregistered)|].
  intros other handler Hne Hh.
  set (n := match name with None => Command_name (cls_name c) | Some n => n end)
    in *.
  unfold handler_of, facility_of in Hh.
  destruct (heap w !! parser) as [[p|]|] eqn:Hp; try discriminate.
  destruct (subparsers_attr p) as [a|] eqn:Ha; try discriminate.
  destruct (heap w !! a) as [[|s]|] eqn:Hs; try discriminate.
  destruct (dict_get (_name_parser_map s) other) as [r'|] eqn:Hr';
    try discriminate.
  destruct (heap w !! r') as [[q|]|] eqn:Hq; try discriminate.
  pose proof (lookup_lt_Some _ _ _ Hp) as Hltp.
  pose proof (lookup_lt_Some _ _ _ Hs) as Hlta.
  pose proof (lookup_lt_Some _ _ _ Hq) as Hltq.
  assert (Hap : a <> parser) by (intros ->; congruence).
  assert (Har : a <> r') by (intros ->; congruence).
  unfold register in Hregistered. fold n in Hregistered.
  rewrite (bind_Ok _ _ _ _ _ (subparsers_again _ _ _ _ Hp Ha)) in Hregistered.
  destruct (conflicting_subparser_check env
            && match dict_get (_name_parser_map s) n with
               | Some _ => true
               | None => false
               end) eqn:Hcond.
  { apply andb_prop in Hcond as [Hcheck Htaken].
    destruct (dict_get (_name_parser_map s) n) as [r0|] eqn:Hr0;
      [|discriminate].
    rewrite (bind_Raise _ _ _ _ _
               (add_parser_conflict env a n _ _ _ w s r0 Hs Hcheck Hr0))
      in Hregistered.
    discriminate. }
  rewrite (bind_Ok _ _ _ _ _ (add_parser_new env a n _ _ _ w s Hs Hcond))
    in Hregistered.
  set (r := length (heap w)) in *.
  set (w2 := set_heap _ w) in Hregistered.
  assert (Hr2 : heap w2 !! r
                = Some (OParser (blank_parser (_prog_prefix s ++ " " ++ n)
                                   (help_title c) (help_body c)))).
  { subst w2 r. cbn [heap set_heap]. apply list_lookup_middle.
    now rewrite length_insert. }
  destruct (Command_init_blank (impl c) r w2 _ _ _ Hr2) as (p' & Hinit).
  assert (Hnew : Command_new c r w2
                 = (Ok {| cls := c; parser := r |},
                    set_heap (<[r := OParser p']> (heap w2)) w2))
    by (unfold Command_new; now rewrite (bind_Ok _ _ _ _ _ Hinit)).
  rewrite (bind_Ok _ _ _ _ _ Hnew) in Hregistered.
  pose proof (lookup_lt_Some _ _ _ Hr2) as Hltr.
  erewrite set_defaults_at in Hregistered
    by (cbn [heap set_heap]; apply list_lookup_insert_eq, Hltr).
  inversion Hregistered as [Hw']. clear Hregistered Hw'.
  assert (Hold : forall x o (y : object),
             x < length (heap w) -> x <> a -> heap w !! x = Some o ->
             <[r := y]> (<[r := OParser p']> (heap w2)) !! x = Some o).
  { intros x o y Hx Hxa Ho.
    rewrite !list_lookup_insert_ne by (subst r; lia).
    subst w2. cbn [heap set_heap].
    rewrite lookup_app_l by (rewrite length_insert; exact Hx).
    rewrite list_lookup_insert_ne by congruence. exact Ho. }
  unfold handler_of, facility_of. cbn [heap set_heap].
  rewrite (Hold parser _ _ Hltp (not_eq_sym Hap) Hp), Ha.
  assert (Haction : forall y : object,
             <[r := y]> (<[r := OParser p']> (heap w2)) !! a
             = Some (OSubParsers (filed s n (help_title c) r))).
  { intros y. rewrite !list_lookup_insert_ne by (subst r; lia).
    subst w2. cbn [heap set_heap].
    rewrite lookup_app_l by (rewrite length_insert; exact Hlta).
    apply list_lookup_insert_eq, Hlta. }
  rewrite Haction. cbn [filed _name_parser_map].
  rewrite dict_get_set_ne by congruence. rewrite Hr'.
  rewrite (Hold r' _ _ Hltq (not_eq_sym Har) Hq). exact Hh.
Qed.

(* --------------------------------------------------------------------- *)
(* The tree of a fresh process                                           *)
(* --------------------------------------------------------------------- *)

Lemma handler_of_heap h w parser n :
  handler_of (set_heap h w) parser n
  = handler_of (set_heap h (initial ∅)) parser n.
Proof. reflexivity. Qed.

Lemma registered_names_heap h w parser :
  registered_names (set_heap h w) parser
  = registered_names (set_heap h (initial ∅)) parser.
Proof. reflexivity. Qed.

Lemma dict_get_keys {V} (d : list (string * V)) k v :
  dict_get d k = Some v -> In k (dict_keys d).
Proof.
  intros H. apply dict_get_In in H. unfold dict_keys.
  apply in_map_iff. now exists (k, v).
Qed.

Lemma handler_is_registered w parser n c :
  handler_of w parser n = Some c -> In n (registered_names w parser).
Proof.
  unfold handler_of, registered_names.
  destruct (facility_of w parser) as [a|]; [|discriminate].
  destruct (heap w !! a) as [[|s]|]; try discriminate.
  destruct (dict_get (_name_parser_map s) n) as [r|] eqn:Hr; [|discriminate].
  intros _. eapply dict_get_keys, Hr.
Qed.


(* --------------------------------------------------------------------- *)
(* Colour is for terminals                                               *)
(* --------------------------------------------------------------------- *)

Lemma plain_colorized env t : isatty env = false -> plain_text (colorized env t) = true.
Proof. unfold colorized. now intros ->. Qed.

Lemma plain_colourised_status env node :
  isatty env = false -> plain_text (colourised_status env node) = true.
Proof.
  intros H. unfold colourised_status.
  destruct (dict_get _ _); [now apply plain_colorized|reflexivity].
Qed.

Lemma plain_colourised_power env node :
  isatty env = false -> plain_text (colourised_power env node) = true.
Proof.
  intros H. unfold colourised_power.
  destruct (dict_get _ _); [now apply plain_colorized|reflexivity].
Qed.

Lemma plain_opt_cell o : plain_text (prep (opt_cell o)) = true.
Proof. now destruct o. Qed.

Lemma plain_listing env (header : list string) (body : list row) :
  isatty env = false ->
  (forall r, In r body -> forallb (fun c => plain_text (prep c)) (snd r) = true) ->
  prints_only plain_output
    (print_table env ([List.map str_cell header]
                      ++ List.map cells (sorted itemgetter0 body))).
Proof.
  intros Htty Hbody w. eexists. split; [reflexivity|].
  cbn [forallb plain_output]. rewrite Htty. cbn [negb andb].
  rewrite Bool.andb_true_r. unfold prep_table.
  cbn [app List.map forallb]. apply andb_true_intro. split.
  - rewrite List.map_map. apply forallb_forall. intros t Ht.
    apply in_map_iff in Ht as (s & <- & _). reflexivity.
  - apply forallb_forall. intros r Hr.
    apply in_map_iff in Hr as (r0 & <- & Hr0).
    apply in_map_iff in Hr0 as (r1 & <- & Hr1).
    apply (Permutation_in _ (sorted_perm itemgetter0 body)) in Hr1.
    unfold cells. cbn [List.map forallb prep str_cell plain_text andb].
    rewrite <- (Hbody r1 Hr1). clear.
    induction (snd r1) as [|c l IH]; cbn; [reflexivity|now rewrite IH].
Qed.

Lemma prints_only_raise P e : prints_only P (raise e).
Proof. intros w. exists []. split; [cbn; now rewrite app_nil_r|reflexivity]. Qed.

(** X13: colour is for terminals.  When stdout is not a terminal,
    list-nodes, list-tags, list-files and list-users print nothing but
    AsciiTables of plain strings: no colorclass.Color instance reaches the
    output, whatever statuses, power states and admin flags the server
    reports, and also when the server fails. *)
Theorem listings_print_no_colour_to_a_pipe
  (env : environment) (origin : Profile) (options : Namespace)
  (Hpipe : isatty env = false) :
  prints_only plain_output (list_nodes_execute env origin options)
  /\ prints_only plain_output (list_tags_execute env origin options)
  /\ prints_only plain_output (list_files_execute env origin options)
  /\ prints_only plain_output (list_users_execute env origin options).
Proof.
  repeat split.
  - unfold list_nodes_execute, bind, lift.
    destruct (Nodes env origin) as [nodes|e]; [|apply prints_only_raise].
    apply (plain_listing env _ _ Hpipe). intros r Hr.
    apply in_map_iff in Hr as (node & <- & _).
    cbn [snd forallb prep str_cell plain_text andb].
    now rewrite plain_colourised_status, plain_colourised_power.
  - unfold list_tags_execute, bind, lift.
    destruct (Tags env origin) as [tags|e]; [|apply prints_only_raise].
    apply (plain_listing env _ _ Hpipe). intros r Hr.
    apply in_map_iff in Hr as (tag & <- & _).
    cbn [snd forallb]. now rewrite !plain_opt_cell.
  - unfold list_files_execute, bind, lift.
    destruct (Files env origin) as [files|e]; [|apply prints_only_raise].
    apply (plain_listing env ["File name"] _ Hpipe). intros r Hr.
    apply in_map_iff in Hr as (file & <- & _). reflexivity.
  - unfold list_users_execute, bind, lift.
    destruct (Users env origin) as [users|e]; [|apply prints_only_raise].
    apply (plain_listing env _ _ Hpipe). intros r Hr.
    apply in_map_iff in Hr as (user & <- & _).
    cbn [snd forallb prep str_cell plain_text andb].
    now rewrite plain_colorized.
Qed.

(* --------------------------------------------------------------------- *)
(* Instances                                                             *)
(* --------------------------------------------------------------------- *)

Lemma logout_removes_exactly_the_named_profile_witness :
  getattr logout_dev "profile_name" = Some (VStr "dev")
  /\ fst (logout_call logout_dev (initial {[ "dev" := anonymous_dev ]}))
     = Ok tt
  /\ store (snd (logout_call logout_dev
                   (initial {[ "dev" := anonymous_dev ]}))) !! "dev"
     = None.
Proof.
  split; [reflexivity|].
  assert (Hheld : store (initial {[ "dev" := anonymous_dev ]}) !! "dev"
                  = Some anonymous_dev) by (vm_compute; reflexivity).
  destruct (logout_removes_exactly_the_named_profile logout_dev "dev"
              (initial {[ "dev" := anonymous_dev ]}) eq_refl)
    as (_ & _ & _ & _ & H).
  rewrite Hheld in H. exact H.
Defined.

Lemma login_saves_profile_after_session_witness :
  getattr login_dev "profile_name" = Some (VStr "dev")
  /\ getattr login_dev "url" = Some (VStr "http://x/")
  /\ getattr login_dev "credentials" = Some VNone
  /\ getattr login_dev "insecure" = Some (VBool false)
  /\ fst (login_call legacy login_dev (initial ∅)) = Ok tt
  /\ store (snd (login_call legacy login_dev (initial ∅))) !! "dev"
     = Some {| credentials := None; description := "description";
               name := "dev"; url := "http://x/" |}.
Proof.
  do 4 (split; [reflexivity|]).
  destruct (login_saves_profile_after_session legacy login_dev "dev"
              "http://x/" VNone false (initial ∅)
              eq_refl eq_refl eq_refl eq_refl)
    as (Hreturns & Hsaved & _).
  exact (conj Hreturns Hsaved).
Defined.

Lemma login_then_logout_restores_the_store_witness :
  store (initial ∅) !! "dev" = None
  /\ store (snd (logout_call login_dev
                   (snd (login_call legacy login_dev (initial ∅)))))
     = store (initial ∅).
Proof.
  assert (Hnew : store (initial ∅) !! "dev" = None)
    by (vm_compute; reflexivity).
  split; [exact Hnew|].
  exact (proj2 (proj2
    (login_then_logout_restores_the_store legacy login_dev "dev"
       "http://x/" VNone false (initial ∅) None "description"
       eq_refl eq_refl eq_refl eq_refl eq_refl eq_refl Hnew))).
Defined.

Lemma origin_command_resolves_profile_first_witness :
  origin_bound (impl (cls {| cls := cmd_list_nodes; parser := 0 |})) = true
  /\ getattr logout_dev "profile_name" = Some (VStr "dev")
  /\ Command_call legacy {| cls := cmd_list_nodes; parser := 0 |} logout_dev
       (initial ∅)
     = (Raise (Exception "KeyError" (Parse.repr "dev")), initial ∅).
Proof.
  split; [reflexivity|]. split; [reflexivity|].
  assert (Hnone : store (initial ∅) !! "dev" = None)
    by (vm_compute; reflexivity).
  pose proof (origin_command_resolves_profile_first legacy
                {| cls := cmd_list_nodes; parser := 0 |} logout_dev "dev"
                (initial ∅) eq_refl eq_refl) as H.
  rewrite Hnone in H. exact H.
Defined.

Lemma listing_tables_widths_witness :
  exists t,
    list_nodes_execute legacy anonymous_dev [] (initial ∅)
    = (Ok tt, add_stdout (initial ∅) [Table (isatty legacy) t])
    /\ length t = 3
    /\ forall r, In r t -> length r = 7.
Proof.
  exact (proj1 (listing_tables_widths legacy anonymous_dev [] (initial ∅))
           _ eq_refl).
Defined.

Lemma keyed_store_is_served n p :
  store (initial {[ "prod" := with_key ]}) !! n = Some p ->
  exists c d, credentials p = Some c
              /\ fromURL legacy (url p) (Some c) false = Ok d.
Proof.
  intros Hp. cbn [store initial] in Hp.
  apply lookup_singleton_Some in Hp as [_ <-].
  do 2 eexists. split; reflexivity.
Defined.

Lemma refresh_profiles_refreshes_every_description_witness :
  exists w',
    refresh_profiles_call legacy [] (initial {[ "prod" := with_key ]})
    = (Ok tt, w')
    /\ exists c d,
        credentials with_key = Some c
        /\ fromURL legacy (url with_key) (Some c) false = Ok d
        /\ store w' !! "prod" = Some (refreshed with_key d).
Proof.
  assert (Hheld : store (initial {[ "prod" := with_key ]}) !! "prod"
                  = Some with_key) by (vm_compute; reflexivity).
  destruct (refresh_profiles_refreshes_every_description legacy []
              (initial {[ "prod" := with_key ]}) keyed_store_is_served)
    as (w' & Hrun & _ & _ & _ & Hstore).
  specialize (Hstore "prod"). rewrite Hheld in Hstore.
  exists w'. split; [exact Hrun|exact Hstore].
Defined.

Lemma register_touches_only_its_own_name_witness :
  register legacy cmd_logout 0 None (login_registered legacy)
  = (Ok tt, snd (register legacy cmd_logout 0 None (login_registered legacy)))
  /\ handler_of (snd (register legacy cmd_logout 0 None
                        (login_registered legacy))) 0 "login"
     = Some {| cls := cmd_login; parser := 2 |}.
Proof.
  assert (Hregistered :
            register legacy cmd_logout 0 None (login_registered legacy)
            = (Ok tt, snd (register legacy cmd_logout 0 None
                             (login_registered legacy))))
    by (vm_compute; reflexivity).
  assert (Hlogin : handler_of (login_registered legacy) 0 "login"
                   = Some {| cls := cmd_login; parser := 2 |})
    by (vm_compute; reflexivity).
  assert (Hother : "login" <> Command_name (cls_name cmd_logout))
    by (vm_compute; discriminate).
  split; [exact Hregistered|].
  exact (proj2 (register_touches_only_its_own_name legacy cmd_logout 0 None
                  _ _ Hregistered)
           "login" _ Hother Hlogin).
Defined.


Lemma listings_print_no_colour_to_a_pipe_witness :
  isatty legacy = false
  /\ prints_only plain_output (list_nodes_execute legacy anonymous_dev []).
Proof.
  split; [reflexivity|].
  exact (proj1 (listings_print_no_colour_to_a_pipe legacy anonymous_dev []
                  eq_refl)).
Defined.
